(** * gocryptfs: reverse-mode path operations and the xattr codec

    A shallow embedding of [internal/fusefrontend_reverse/rfs.go] together
    with the collaborators it calls, and of the extended-attribute codec
    exercised by the xattr integration tests.

    Conventions.
    - Go strings and byte slices are byte sequences: [string] and
      [list byte]; [[]byte(s)] is [list_byte_of_string].
    - Unsigned machine integers are [Z] with the wrap-around written out.
    - A Go result pair (pointer, fuse.Status) whose pointer is nil exactly when
      the status is not OK is a sum: [inl e] is [(nil, e)], [inr a] is
      [(a, fuse.OK)].  Only [OpenDir], which tests the slice against nil
      instead of the status, keeps the literal pair.
    - The mutable receiver (a pointer to reverseFS) is threaded explicitly. *)

From Stdlib Require Import ZArith Lia Ascii String List Bool.
From Stdlib.Strings Require Import Byte.
From stdpp Require Import base option list gmap strings.

Local Open Scope Z_scope.

(** ** path/filepath (Unix) *)

Module Filepath.

Definition Separator : ascii := "/"%char.

Definition IsPathSeparator (c : ascii) : bool := Ascii.eqb c Separator.

(** The elements of a path between separators; the empty path has one
    empty element. *)
Fixpoint split (path : string) : list string :=
  match path with
  | EmptyString => [EmptyString]
  | String c rest =>
      if IsPathSeparator c then EmptyString :: split rest
      else match split rest with
           | [] => [String c EmptyString]
           | w :: ws => String c w :: ws
           end
  end.

Definition join_sep (elems : list string) : string :=
  String.concat "/" elems.

(** One element of [Clean]'s scan.  [out] is the output buffer as a stack
    of elements, innermost first: empty and [.] elements are skipped, [..]
    backtracks over a real element when there is one, is dropped at the
    root, and is kept otherwise. *)
Definition clean_step (rooted : bool) (out : list string) (elem : string)
  : list string :=
  if String.eqb elem EmptyString || String.eqb elem "." then out
  else if String.eqb elem ".." then
    match out with
    | top :: below =>
        if String.eqb top ".." then elem :: out else below
    | [] => if rooted then [] else [elem]
    end
  else elem :: out.

Definition Clean (path : string) : string :=
  if String.eqb path EmptyString then "."%string
  else
    let rooted := match path with
                  | String c _ => IsPathSeparator c
                  | EmptyString => false
                  end in
    let out := fold_left (clean_step rooted) (split path) [] in
    let body := join_sep (rev out) in
    if rooted then String Separator body
    else if String.eqb body EmptyString then "."%string else body.

(** [path[:i+1]] for the index [i] of the last separator ([-1] if none). *)
Fixpoint upto_last_sep (path : string) : string :=
  match path with
  | EmptyString => EmptyString
  | String c rest =>
      if existsb IsPathSeparator (list_ascii_of_string path)
      then String c (upto_last_sep rest)
      else EmptyString
  end.

Definition Dir (path : string) : string := Clean (upto_last_sep path).

Fixpoint strip_leading_seps (cs : list ascii) : list ascii :=
  match cs with
  | c :: rest => if IsPathSeparator c then strip_leading_seps rest else cs
  | [] => []
  end.

Fixpoint take_element (cs : list ascii) : list ascii :=
  match cs with
  | c :: rest => if IsPathSeparator c then [] else c :: take_element rest
  | [] => []
  end.

(** [Base]: strip trailing separators, keep what follows the last one. *)
Definition Base (path : string) : string :=
  if String.eqb path EmptyString then "."%string
  else
    let stripped := strip_leading_seps (rev (list_ascii_of_string path)) in
    let last := rev (take_element stripped) in
    match last with
    | [] => String Separator EmptyString
    | _ => string_of_list_ascii last
    end.

(** A relative path in its shortest form: no empty, [.] or [..] element,
    hence no leading, trailing or doubled separator. *)
Definition is_real_element (elem : string) : bool :=
  negb (String.eqb elem EmptyString || String.eqb elem "."
        || String.eqb elem "..").

Definition is_clean_relative (path : string) : bool :=
  forallb is_real_element (split path).

End Filepath.

(** ** syscall and go-fuse data *)

Module Fuse.

Definition Status := Z.
Definition OK : Status := 0.

Definition Ok (s : Status) : bool := s =? OK.

(** The errno of a non-nil Go [error], or of a status that is not OK. *)
Definition Errno := positive.

Definition EPERM : Errno := 1%positive.
Definition ENOENT : Errno := 2%positive.
Definition EIO : Errno := 5%positive.
Definition ENOTDIR : Errno := 20%positive.
Definition ENODATA : Errno := 61%positive.
Definition EOPNOTSUPP : Errno := 95%positive.

(** [fuse.ToStatus]: nil is OK, an error is its errno. *)
Definition ToStatus (err : option Errno) : Status :=
  match err with
  | None => OK
  | Some e => Z.pos e
  end.

(** Octal 0170000, 0040000, 0100000 and 0100. *)
Definition S_IFMT : Z := 0xf000.
Definition S_IFDIR : Z := 0x4000.
Definition S_IFREG : Z := 0x8000.
Definition S_IXUSR : Z := 0x40.
Definition NAME_MAX : Z := 255.

Definition u32 (x : Z) : Z := x mod 2 ^ 32.
Definition u64 (x : Z) : Z := x mod 2 ^ 64.

Record Timespec := { Sec : Z; Nsec : Z }.

Record Stat_t := {
  st_Dev : Z; st_Ino : Z; st_Nlink : Z; st_Mode : Z;
  st_Uid : Z; st_Gid : Z; st_Rdev : Z; st_Size : Z;
  st_Blksize : Z; st_Blocks : Z;
  st_Atim : Timespec; st_Mtim : Timespec; st_Ctim : Timespec
}.

Definition with_st_Ino (st : Stat_t) (ino : Z) : Stat_t :=
  {| st_Dev := st_Dev st; st_Ino := ino; st_Nlink := st_Nlink st;
     st_Mode := st_Mode st; st_Uid := st_Uid st; st_Gid := st_Gid st;
     st_Rdev := st_Rdev st; st_Size := st_Size st;
     st_Blksize := st_Blksize st; st_Blocks := st_Blocks st;
     st_Atim := st_Atim st; st_Mtim := st_Mtim st; st_Ctim := st_Ctim st |}.

Record Attr := {
  Ino : Z; Size : Z; Blocks : Z;
  Atime : Z; Mtime : Z; Ctime : Z;
  Atimensec : Z; Mtimensec : Z; Ctimensec : Z;
  Mode : Z; Nlink : Z; Uid : Z; Gid : Z; Rdev : Z; Blksize : Z
}.

Definition FromStat (s : Stat_t) : Attr :=
  {| Ino := u64 (st_Ino s);
     Size := u64 (st_Size s);
     Blocks := u64 (st_Blocks s);
     Atime := u64 (Sec (st_Atim s));
     Mtime := u64 (Sec (st_Mtim s));
     Ctime := u64 (Sec (st_Ctim s));
     Atimensec := u32 (Nsec (st_Atim s));
     Mtimensec := u32 (Nsec (st_Mtim s));
     Ctimensec := u32 (Nsec (st_Ctim s));
     Mode := st_Mode s;
     Nlink := u32 (st_Nlink s);
     Uid := u32 (st_Uid s);
     Gid := u32 (st_Gid s);
     Rdev := u32 (st_Rdev s);
     Blksize := u32 (st_Blksize s) |}.

Definition IsDir (a : Attr) : bool := Z.land (Mode a) S_IFMT =? S_IFDIR.
Definition IsRegular (a : Attr) : bool := Z.land (Mode a) S_IFMT =? S_IFREG.

(** [os.FileMode.IsRegular] of the [FileInfo] behind a [Stat_t]. *)
Definition fi_IsRegular (st : Stat_t) : bool :=
  Z.land (st_Mode st) S_IFMT =? S_IFREG.

Definition with_Size (a : Attr) (size : Z) : Attr :=
  {| Ino := Ino a; Size := size; Blocks := Blocks a;
     Atime := Atime a; Mtime := Mtime a; Ctime := Ctime a;
     Atimensec := Atimensec a; Mtimensec := Mtimensec a;
     Ctimensec := Ctimensec a;
     Mode := Mode a; Nlink := Nlink a; Uid := Uid a; Gid := Gid a;
     Rdev := Rdev a; Blksize := Blksize a |}.

(** The four assignments [a.Mode = ..; a.Size = ..; a.Nlink = ..; a.Ino = ..]. *)
Definition with_Mode_Size_Nlink_Ino (a : Attr) (mode size nlink ino : Z)
  : Attr :=
  {| Ino := ino; Size := size; Blocks := Blocks a;
     Atime := Atime a; Mtime := Mtime a; Ctime := Ctime a;
     Atimensec := Atimensec a; Mtimensec := Mtimensec a;
     Ctimensec := Ctimensec a;
     Mode := mode; Nlink := nlink; Uid := Uid a; Gid := Gid a;
     Rdev := Rdev a; Blksize := Blksize a |}.

Record DirEntry := { de_Mode : Z; de_Name : string }.

Definition with_Name (e : DirEntry) (name : string) : DirEntry :=
  {| de_Mode := de_Mode e; de_Name := name |}.

(** The status a caller sees for a result in the sum convention. *)
Definition status_of {A} (r : Errno + A) : Status :=
  match r with
  | inl e => ToStatus (Some e)
  | inr _ => OK
  end.

End Fuse.

(** ** Constants of the sibling packages *)

Module Configfile.
Definition ConfDefaultName : string := "gocryptfs.conf".
Definition ConfReverseName : string := ".gocryptfs.reverse.conf".
End Configfile.

Module Nametransform.
Definition DirIVLen : Z := 16.
Definition DirIVFilename : string := "gocryptfs.diriv".
Definition LongNameSuffix : string := ".name".
End Nametransform.

Module Contentenc.

Definition PBS : Z := 4096.
Definition IV_LEN : Z := 16.
Definition TAG_LEN : Z := 16.
Definition CBS : Z := PBS + IV_LEN + TAG_LEN.
Definition HEADER : Z := 18.

(** Modelled from the spec: [ContentEnc.PlainSizeToCipherSize]
    (internal/contentenc) is not under src.  This is the size translation
    of the block grid: zero stays zero; otherwise, with [n] the number of
    blocks rounded up, a header plus [n] full ciphertext blocks when the
    size is a multiple of the plaintext block size, and a header plus
    [n-1] full blocks plus the rest with its nonce and tag when it is
    not. *)
Definition PlainSizeToCipherSize (p : Z) : Z :=
  if p =? 0 then 0
  else
    let n := (p + PBS - 1) / PBS in
    if p mod PBS =? 0 then HEADER + n * CBS
    else HEADER + (n - 1) * CBS + (p - (n - 1) * PBS) + IV_LEN + TAG_LEN.

End Contentenc.

(** ** fusefrontend_reverse *)

Module Reverse.
Import Fuse Configfile Nametransform Contentenc.

(** octal 0100400 *)
Definition DirIVMode : Z := Z.lor S_IFREG 0x100.

(** What [rfs.go] calls and does not define: the path and name helpers of
    the package and of nametransform, the operating system, and the
    go-fuse loopback filesystem over the backing directory. *)
Record Collaborators := {
  decryptPath : string -> Errno + string;
  abs : string -> option Errno -> Errno + string;
  isFiltered : string -> bool;
  EncryptName : string -> list byte -> string;
  deriveDirIV : string -> list byte;
  HashLongName : string -> string;
  os_Stat : string -> Errno + Stat_t;
  os_Lstat : string -> Errno + Stat_t;
  syscall_Access : string -> Z -> option Errno;
  loopbackfs_GetAttr : string -> Errno + Attr;
  loopbackfs_OpenDir : string -> option (list DirEntry) * Status
}.

(** [rfs.abs(rfs.decryptPath(relPath))]: the pair is passed on whole. *)
Definition abs_decryptPath (c : Collaborators) (relPath : string)
  : Errno + string :=
  match decryptPath c relPath with
  | inl err => abs c EmptyString (Some err)
  | inr p => abs c p None
  end.

(** Modelled from the spec: the inode number generator ([inoGenT],
    [NewInoGen], [next]) is not under src.  Inode numbers are freshly
    generated: a 64-bit counter that starts at 1 and is incremented
    before it is handed out. *)
Definition NewInoGen : Z := 1.

Definition next (gen : Z) : Z * Z :=
  let v := u64 (gen + 1) in (v, v).

Record reverseFS := {
  inoGen : Z;
  inoMap : gmap (Z * Z) Z
}.

Definition NewFS : reverseFS :=
  {| inoGen := NewInoGen; inoMap := ∅ |}.

Definition relDir (path : string) : string :=
  let dir := Filepath.Dir path in
  if String.eqb dir "." then EmptyString else dir.

Definition dirIVAttr (c : Collaborators) (relPath : string) (rfs : reverseFS)
  : (Errno + Attr) * reverseFS :=
  let cDir := relDir relPath in
  match decryptPath c cDir with
  | inl err => (inl err, rfs)
  | inr dir =>
      match loopbackfs_GetAttr c dir with
      | inl status => (inl status, rfs)
      | inr a =>
          if negb (IsDir a) then (inl ENOTDIR, rfs)
          else if Z.land (Mode a) S_IXUSR =? 0 then (inl EPERM, rfs)
          else
            let '(ino, gen) := next (inoGen rfs) in
            (inr (with_Mode_Size_Nlink_Ino a DirIVMode DirIVLen 1 ino),
             {| inoGen := gen; inoMap := inoMap rfs |})
      end
  end.

Definition isDirIV (relPath : string) : bool :=
  String.eqb (Filepath.Base relPath) DirIVFilename.

Definition inoAwareStat (c : Collaborators) (relPlainPath : string)
    (rfs : reverseFS) : (Errno + Attr) * reverseFS :=
  match abs c relPlainPath None with
  | inl err => (inl err, rfs)
  | inr absPath =>
      let fi := if String.eqb relPlainPath EmptyString
                then os_Stat c absPath
                else os_Lstat c absPath in
      match fi with
      | inl err => (inl err, rfs)
      | inr st =>
          if fi_IsRegular st && (1 <? st_Nlink st) then
            let di := (st_Dev st, st_Ino st) in
            let stableIno := default 0 (inoMap rfs !! di) in
            let rfs' :=
              if stableIno =? 0 then
                let '(ino, gen) := next (inoGen rfs) in
                {| inoGen := gen; inoMap := <[di := ino]> (inoMap rfs) |}
              else rfs in
            (inr (FromStat (with_st_Ino st stableIno)), rfs')
          else
            let '(ino, gen) := next (inoGen rfs) in
            (inr (FromStat (with_st_Ino st ino)),
             {| inoGen := gen; inoMap := inoMap rfs |})
      end
  end.

Definition GetAttr (c : Collaborators) (relPath : string) (rfs : reverseFS)
  : (Errno + Attr) * reverseFS :=
  if String.eqb relPath ConfDefaultName then
    inoAwareStat c ConfReverseName rfs
  else if isDirIV relPath then dirIVAttr c relPath rfs
  else if isFiltered c relPath then (inl EPERM, rfs)
  else
    match decryptPath c relPath with
    | inl err => (inl err, rfs)
    | inr cPath =>
        match inoAwareStat c cPath rfs with
        | (inl status, rfs') => (inl status, rfs')
        | (inr a, rfs') =>
            if IsRegular a
            then (inr (with_Size a (PlainSizeToCipherSize (Size a))), rfs')
            else (inr a, rfs')
        end
    end.

Definition Access (c : Collaborators) (relPath : string) (mode : Z)
  : Status :=
  if isDirIV relPath then OK
  else if isFiltered c relPath then ToStatus (Some EPERM)
  else
    match abs_decryptPath c relPath with
    | inl err => ToStatus (Some err)
    | inr absPath => ToStatus (syscall_Access c absPath mode)
    end.

Definition len (s : string) : Z := Z.of_nat (String.length s).

(** One iteration of the loop [for i := range entries]: it rewrites
    [entries[i].Name] in place and may append to [virtualFiles]. *)
Definition OpenDir_iter (c : Collaborators) (cipherPath : string)
    (dirIV : list byte) (acc : list DirEntry * list DirEntry) (i : nat)
  : list DirEntry * list DirEntry :=
  let '(entries, virtualFiles) := acc in
  match entries !! i with
  | None => acc
  | Some e =>
      let '(cName, virtualFiles) :=
        if String.eqb cipherPath EmptyString
           && String.eqb (de_Name e) ConfReverseName
        then (ConfDefaultName, virtualFiles)
        else
          let cName := EncryptName c (de_Name e) dirIV in
          if NAME_MAX <? len cName then
            let cName := HashLongName c cName in
            let dotNameFile :=
              {| de_Mode := Z.lor S_IFREG 0x180;
                 de_Name := String.append cName LongNameSuffix |} in
            (cName, virtualFiles ++ [dotNameFile])
          else (cName, virtualFiles) in
      (<[i := with_Name e cName]> entries, virtualFiles)
  end.

Definition OpenDir (c : Collaborators) (cipherPath : string)
  : option (list DirEntry) * Status :=
  match decryptPath c cipherPath with
  | inl err => (None, ToStatus (Some err))
  | inr relPath =>
      match loopbackfs_OpenDir c relPath with
      | (None, status) => (None, status)
      | (Some entries, _) =>
          let dirIVEntry :=
            {| de_Mode := Z.lor S_IFREG 0x100; de_Name := DirIVFilename |} in
          let virtualFiles := [dirIVEntry] in
          let dirIV := deriveDirIV c cipherPath in
          let '(entries, virtualFiles) :=
            fold_left (OpenDir_iter c cipherPath dirIV)
                      (seq 0 (length entries)) (entries, virtualFiles) in
          (Some (entries ++ virtualFiles), OK)
      end
  end.

End Reverse.

(** ** encoding/base64, [RawURLEncoding] *)

Module Base64.
Local Open Scope nat_scope.

Definition encodeURL : list ascii :=
  list_ascii_of_string
    "ABCDEFGHIJKLMNOPQRSTUVWXYZabcdefghijklmnopqrstuvwxyz0123456789-_".

(** The bits of a byte, most significant first. *)
Definition byte_bits (b : byte) : list bool :=
  let '(b0, (b1, (b2, (b3, (b4, (b5, (b6, b7))))))) := Byte.to_bits b in
  [b7; b6; b5; b4; b3; b2; b1; b0].

Definition bits_of_bytes (bs : list byte) : list bool :=
  flat_map byte_bits bs.

(** Whole bytes of a bit string; trailing bits that do not fill a byte are
    dropped, as the decoder does with the bits left in its last quantum. *)
Fixpoint bytes_of_bits (bits : list bool) : list byte :=
  match bits with
  | b7 :: b6 :: b5 :: b4 :: b3 :: b2 :: b1 :: b0 :: rest =>
      Byte.of_bits (b0, (b1, (b2, (b3, (b4, (b5, (b6, b7)))))))
      :: bytes_of_bits rest
  | _ => []
  end.

Definition bit (b : bool) : nat := if b then 1 else 0.

Definition sextet_index (b5 b4 b3 b2 b1 b0 : bool) : nat :=
  32 * bit b5 + 16 * bit b4 + 8 * bit b3 + 4 * bit b2 + 2 * bit b1 + bit b0.

Definition encode_sextet (b5 b4 b3 b2 b1 b0 : bool) : ascii :=
  nth (sextet_index b5 b4 b3 b2 b1 b0) encodeURL "A"%char.

(** Six bits per output character; the last group is filled with zero
    bits and no padding character is written. *)
Fixpoint chars_of_bits (bits : list bool) : list ascii :=
  match bits with
  | b5 :: b4 :: b3 :: b2 :: b1 :: b0 :: rest =>
      encode_sextet b5 b4 b3 b2 b1 b0 :: chars_of_bits rest
  | [] => []
  | [b5] => [encode_sextet b5 false false false false false]
  | [b5; b4] => [encode_sextet b5 b4 false false false false]
  | [b5; b4; b3] => [encode_sextet b5 b4 b3 false false false]
  | [b5; b4; b3; b2] => [encode_sextet b5 b4 b3 b2 false false]
  | [b5; b4; b3; b2; b1] => [encode_sextet b5 b4 b3 b2 b1 false]
  end.

Definition EncodeToString (src : list byte) : string :=
  string_of_list_ascii (chars_of_bits (bits_of_bytes src)).

Fixpoint index_of (c : ascii) (l : list ascii) : option nat :=
  match l with
  | [] => None
  | x :: rest =>
      if Ascii.eqb c x then Some 0
      else match index_of c rest with
           | Some i => Some (S i)
           | None => None
           end
  end.

Definition sextet_bits (i : nat) : list bool :=
  [Nat.testbit i 5; Nat.testbit i 4; Nat.testbit i 3;
   Nat.testbit i 2; Nat.testbit i 1; Nat.testbit i 0].

Definition decode_char (c : ascii) : option (list bool) :=
  match index_of c encodeURL with
  | Some i => Some (sextet_bits i)
  | None => None
  end.

Fixpoint bits_of_chars (cs : list ascii) : option (list bool) :=
  match cs with
  | [] => Some []
  | c :: rest =>
      match decode_char c, bits_of_chars rest with
      | Some s, Some bits => Some (s ++ bits)
      | _, _ => None
      end
  end.

Definition is_newline (c : ascii) : bool :=
  Ascii.eqb c "010"%char || Ascii.eqb c "013"%char.

(** [DecodeString]: carriage returns and line feeds are skipped, any other
    byte outside the alphabet is corrupt input, a single character left
    over after the last quantum of four is corrupt input, and the bits
    left over in a final quantum of two or three are not checked. *)
Definition DecodeString (s : string) : option (list byte) :=
  let cs := List.filter (fun c => negb (is_newline c))
                        (list_ascii_of_string s) in
  match bits_of_chars cs with
  | None => None
  | Some bits =>
      if length cs mod 4 =? 1 then None else Some (bytes_of_bits bits)
  end.

End Base64.

(** ** The extended-attribute codec of the forward filesystem *)

Module Xattr.
Import Fuse.
Local Open Scope nat_scope.

Definition NONCE_LEN : nat := 16.
Definition TAG_LEN : nat := 16.

(** Modelled from the spec: CryptoCore is not under src.  The content
    AEAD and the filename cipher chosen at construction, as a capability
    set.  [aead_seal nonce ad plain] is the ciphertext followed by the
    tag, [aead_open nonce ad sealed] is the plaintext or an authentication
    failure; [backing_path] is the path translation of the forward
    filesystem. *)
Class Backend := {
  aead_seal : list byte -> list byte -> list byte -> list byte;
  aead_open : list byte -> list byte -> list byte -> option (list byte);
  cipher_name : list byte -> list byte -> list byte;
  backing_path : string -> string;
  aead_seal_length : forall nonce ad plain,
    length (aead_seal nonce ad plain) = length plain + TAG_LEN;
  aead_open_seal : forall nonce ad plain,
    aead_open nonce ad (aead_seal nonce ad plain) = Some plain
}.

Section Codec.
Context `{Backend}.

(** Modelled from the spec: the block format [nonce || ciphertext || tag]
    of ContentEnc, which is not under src. *)
Definition encrypt_block (plain ad nonce : list byte) : list byte :=
  nonce ++ aead_seal nonce ad plain.

(** Modelled from the spec: a stored value is parsed as a binary record
    when it is at least a nonce and a tag long, and is well formed when
    the AEAD authenticates it. *)
Definition decrypt_block (cipher ad : list byte) : option (list byte) :=
  if length cipher <? NONCE_LEN + TAG_LEN then None
  else aead_open (take NONCE_LEN cipher) ad (drop NONCE_LEN cipher).

(** Modelled from the spec: value encryption uses a fresh nonce and the
    AEAD over the raw value with empty associated data; the nonce drawn
    from the nonce source is the argument [nonce]. *)
Definition encryptXattrValue (nonce data : list byte) : list byte :=
  encrypt_block data [] nonce.

(** Modelled from the spec: the decoder attempts raw parsing first; if
    the stored value is not a well-formed binary record it attempts
    base64url decoding of the bytes and retries; only if both fail is
    the value reported as corrupt, as an I/O error. *)
Definition decryptXattrValue (cData : list byte) : Errno + list byte :=
  match decrypt_block cData [] with
  | Some data => inr data
  | None =>
      match Base64.DecodeString (string_of_list_byte cData) with
      | None => inl EIO
      | Some raw =>
          match decrypt_block raw [] with
          | Some data => inr data
          | None => inl EIO
          end
      end
  end.

Definition userPrefix : string := "user.".
Definition cryptPrefix : string := "user.gocryptfs.".
Definition all_zero_iv : list byte := repeat x00 16.

Definition strip_user_prefix (attr : string) : string :=
  String.substring (String.length userPrefix)
                   (String.length attr - String.length userPrefix) attr.

(** Modelled from the spec: the encrypted attribute name is
    [user.gocryptfs.] followed by the unpadded base64url of the name
    cipher applied, under the all-zero IV, to the name without its
    [user.] prefix. *)
Definition encryptXattrName (attr : string) : string :=
  String.append cryptPrefix
    (Base64.EncodeToString
       (cipher_name (list_byte_of_string (strip_user_prefix attr))
                    all_zero_iv)).

(** The extended attributes of the backing files: backing path, then
    stored attribute name, to stored bytes. *)
Definition lsetxattr (cPath cAttr : string) (value : list byte)
    (disk : gmap string (gmap string (list byte)))
  : option Errno * gmap string (gmap string (list byte)) :=
  match disk !! cPath with
  | None => (Some ENOENT, disk)
  | Some xs => (None, <[cPath := <[cAttr := value]> xs]> disk)
  end.

Definition lgetxattr (cPath cAttr : string)
    (disk : gmap string (gmap string (list byte)))
  : Errno + list byte :=
  match disk !! cPath with
  | None => inl ENOENT
  | Some xs =>
      match xs !! cAttr with
      | None => inl ENODATA
      | Some value => inr value
      end
  end.

Definition lremovexattr (cPath cAttr : string)
    (disk : gmap string (gmap string (list byte)))
  : option Errno * gmap string (gmap string (list byte)) :=
  match disk !! cPath with
  | None => (Some ENOENT, disk)
  | Some xs =>
      match xs !! cAttr with
      | None => (Some ENODATA, disk)
      | Some _ => (None, <[cPath := delete cAttr xs]> disk)
      end
  end.

(** Modelled from the spec: [FS.SetXAttr] of the forward filesystem,
    which is not under src.  Names must start with [user.]. *)
Definition SetXAttr (path attr : string) (data nonce : list byte)
    (disk : gmap string (gmap string (list byte)))
  : Status * gmap string (gmap string (list byte)) :=
  if negb (String.prefix userPrefix attr)
  then (ToStatus (Some EOPNOTSUPP), disk)
  else
    let cAttr := encryptXattrName attr in
    let cData := encryptXattrValue nonce data in
    let '(err, disk) := lsetxattr (backing_path path) cAttr cData disk in
    (ToStatus err, disk).

(** Modelled from the spec: [FS.GetXAttr] of the forward filesystem,
    which is not under src. *)
Definition GetXAttr (path attr : string)
    (disk : gmap string (gmap string (list byte)))
  : Errno + list byte :=
  if negb (String.prefix userPrefix attr) then inl EOPNOTSUPP
  else
    match lgetxattr (backing_path path) (encryptXattrName attr) disk with
    | inl err => inl err
    | inr encryptedData => decryptXattrValue encryptedData
    end.

(** Modelled from the spec: [FS.RemoveXAttr] of the forward filesystem,
    which is not under src. *)
Definition RemoveXAttr (path attr : string)
    (disk : gmap string (gmap string (list byte)))
  : Status * gmap string (gmap string (list byte)) :=
  if negb (String.prefix userPrefix attr)
  then (ToStatus (Some EOPNOTSUPP), disk)
  else
    let '(err, disk) :=
      lremovexattr (backing_path path) (encryptXattrName attr) disk in
    (ToStatus err, disk).

End Codec.

(** The AEAD's verdict on a stored record that is long enough to hold a
    nonce and a tag. *)
Definition authenticates `{Backend} (record : list byte)
  : option (list byte) :=
  aead_open (take NONCE_LEN record) [] (drop NONCE_LEN record).

(** The stored values of the broken-attribute test. *)
Definition brokenShort1 : string := "111".
Definition brokenShort2 : string := "raw-test-long-block123".
Definition brokenLong : string :=
  "raw-test-long-block123-xyz11111111111111111111111111111111111111".
Definition brokenDollars : string := "$$$$$$$$$$$$$$$$$$$$$$$$$$$$$$$$$$".

Definition brokenVals : list string :=
  [brokenShort1; brokenShort2; brokenLong; brokenDollars].

End Xattr.

(** ** The listing of a directory, entry by entry

    What [OpenDir] is to return for one entry of the backing directory,
    written without the loop; [OpenDir_loop] below relates the two. *)

Module Listing.
Import Fuse Configfile Nametransform Reverse.

Section Entry.
Variable c : Collaborators.
Variable cipherPath : string.

Definition dirIVEntry : DirEntry :=
  {| de_Mode := Z.lor S_IFREG 0x100; de_Name := DirIVFilename |}.

Definition is_conf_entry (e : DirEntry) : bool :=
  String.eqb cipherPath EmptyString
  && String.eqb (de_Name e) ConfReverseName.

Definition encrypted_name (e : DirEntry) : string :=
  EncryptName c (de_Name e) (deriveDirIV c cipherPath).

Definition dotNameFile (e : DirEntry) : DirEntry :=
  {| de_Mode := Z.lor S_IFREG 0x180;
     de_Name := String.append (HashLongName c (encrypted_name e))
                              LongNameSuffix |}.

Definition view_name (e : DirEntry) : string :=
  if is_conf_entry e then ConfDefaultName
  else if NAME_MAX <? len (encrypted_name e)
       then HashLongName c (encrypted_name e)
       else encrypted_name e.

Definition view_entry (e : DirEntry) : DirEntry :=
  with_Name e (view_name e).

Definition sidecars (e : DirEntry) : list DirEntry :=
  if is_conf_entry e then []
  else if NAME_MAX <? len (encrypted_name e) then [dotNameFile e]
       else [].

End Entry.

End Listing.

(** ** A small backing directory

    A plaintext directory [/plain] and stand-ins for the name cipher, used
    to run the operations on concrete paths: two hard links to one file, a
    file with a single link, the reverse-mode configuration file, a
    directory, a directory without the owner-execute bit, and a file whose
    name is 255 bytes long. *)

Module Fixture.
Import Fuse Reverse.

Definition EINVAL : Errno := 22%positive.

Definition mkstat (ino nlink mode size : Z) : Stat_t :=
  {| st_Dev := 2049; st_Ino := ino; st_Nlink := nlink; st_Mode := mode;
     st_Uid := 1000; st_Gid := 1000; st_Rdev := 0; st_Size := size;
     st_Blksize := 4096; st_Blocks := 8;
     st_Atim := {| Sec := 1500000001; Nsec := 11 |};
     st_Mtim := {| Sec := 1500000002; Nsec := 22 |};
     st_Ctim := {| Sec := 1500000003; Nsec := 33 |} |}.

Definition longPlainName : string :=
  string_of_list_ascii (repeat "x"%char 255).

Definition lstat (path : string) : Errno + Stat_t :=
  if String.eqb path "/plain" then inr (mkstat 2 4 (Z.lor S_IFDIR 0x1ed) 4096)
  else if String.eqb path "/plain/hard1" || String.eqb path "/plain/hard2"
  then inr (mkstat 77 2 (Z.lor S_IFREG 0x1a4) 4097)
  else if String.eqb path "/plain/single"
  then inr (mkstat 78 1 (Z.lor S_IFREG 0x1a4) 4096)
  else if String.eqb path "/plain/.gocryptfs.reverse.conf"
  then inr (mkstat 79 1 (Z.lor S_IFREG 0x1a4) 300)
  else if String.eqb path "/plain/sub"
  then inr (mkstat 80 2 (Z.lor S_IFDIR 0x1ed) 4096)
  else if String.eqb path "/plain/locked"
  then inr (mkstat 81 2 (Z.lor S_IFDIR 0x1ad) 4096)
  else inl ENOENT.

Definition plain_abs (relPath : string) : string :=
  if String.eqb relPath EmptyString then "/plain"%string
  else String.append "/plain/" relPath.

(** The stand-in name cipher prefixes a name with [E]. *)
Definition toy_decryptPath (cipherPath : string) : Errno + string :=
  match cipherPath with
  | EmptyString => inr EmptyString
  | String "E"%char rest => inr rest
  | _ => inl EINVAL
  end.

Definition rootEntries : list DirEntry :=
  [ {| de_Mode := Z.lor S_IFREG 0x1a4; de_Name := "hard1" |};
    {| de_Mode := Z.lor S_IFREG 0x1a4; de_Name := "hard2" |};
    {| de_Mode := Z.lor S_IFREG 0x1a4; de_Name := ".gocryptfs.reverse.conf" |};
    {| de_Mode := Z.lor S_IFDIR 0x1ed; de_Name := "sub" |};
    {| de_Mode := Z.lor S_IFREG 0x1a4; de_Name := longPlainName |} ].

Definition collab : Collaborators :=
  {| decryptPath := toy_decryptPath;
     abs := fun relPath err =>
              match err with
              | Some e => inl e
              | None => inr (plain_abs relPath)
              end;
     isFiltered := fun _ => false;
     EncryptName := fun name _ => String "E"%char name;
     deriveDirIV := fun _ => repeat x00 16;
     HashLongName := fun name =>
       String.append "gocryptfs.longname."
                     (String.substring 0 8 name);
     os_Stat := lstat;
     os_Lstat := lstat;
     syscall_Access := fun path _ =>
       match lstat path with
       | inl e => Some e
       | inr _ => None
       end;
     loopbackfs_GetAttr := fun name =>
       match lstat (plain_abs name) with
       | inl e => inl e
       | inr st => inr (FromStat st)
       end;
     loopbackfs_OpenDir := fun name =>
       if String.eqb name EmptyString then (Some rootEntries, OK)
       else if String.eqb name "sub" then (Some [], OK)
       else (None, ToStatus (Some ENOENT)) |}.

End Fixture.

(** ** A stand-in backend

    A backend that satisfies the laws of [Xattr.Backend], used to run the
    codec on concrete values.  It is not a cipher: the sealed value is the
    plaintext followed by sixteen copies of a one-byte checksum. *)

Module ToyBackend.
Local Open Scope nat_scope.

Definition checksum (bs : list byte) : byte :=
  match Byte.of_nat (fold_right (fun b acc => (Byte.to_nat b + 3 * acc + 1) mod 251)
                                7 bs) with
  | Some b => b
  | None => x00
  end.

Definition toy_tag (nonce ad plain : list byte) : list byte :=
  repeat (checksum (nonce ++ ad ++ plain)) Xattr.TAG_LEN.

Definition toy_seal (nonce ad plain : list byte) : list byte :=
  plain ++ toy_tag nonce ad plain.

Fixpoint bytes_eqb (a b : list byte) : bool :=
  match a, b with
  | [], [] => true
  | x :: a', y :: b' => Byte.eqb x y && bytes_eqb a' b'
  | _, _ => false
  end.

Definition toy_open (nonce ad sealed : list byte) : option (list byte) :=
  let n := length sealed - Xattr.TAG_LEN in
  let plain := take n sealed in
  if bytes_eqb (drop n sealed) (toy_tag nonce ad plain)
  then Some plain else None.

Definition toy_cipher_name (name iv : list byte) : list byte := rev name.

Definition toy_backing_path (path : string) : string :=
  String.append "/cipher/" path.

(** A backing directory with one file, without attributes. *)
Definition disk0 : gmap string (gmap string (list byte)) :=
  {[ "/cipher/file"%string := ∅ ]}.

Definition nonce1 : list byte := list_byte_of_string "0123456789abcdef".
Definition nonce2 : list byte := list_byte_of_string "fedcba9876543210".

Definition value1 : list byte := list_byte_of_string "123456789".
Definition value2 : list byte := list_byte_of_string "xyz123".

End ToyBackend.

(** ** fusefrontend_reverse: [Open], and runs of [GetAttr] *)

Module ReverseOpen.
Import Fuse Configfile Nametransform Reverse.

(** What [Open] calls and [rfs.go] does not define: the loopback
    filesystem's [Open], the constructors of the two kinds of file handle,
    and [os.OpenFile].  [File] stands for [nodefs.File], [OsFile] for
    [*os.File]. *)
Record FileCollaborators (File OsFile : Type) := {
  loopbackfs_Open : string -> Z -> Errno + File;
  NewDirIVFile : string -> Errno + File;
  os_OpenFile : string -> Z -> Z -> Errno + OsFile;
  NewFile : OsFile -> Errno + File
}.

Arguments loopbackfs_Open {File OsFile}.
Arguments NewDirIVFile {File OsFile}.
Arguments os_OpenFile {File OsFile}.
Arguments NewFile {File OsFile}.

(** The permission argument 0666 of [os.OpenFile] is 0x1b6. *)
Definition Open {File OsFile : Type} (c : Collaborators)
    (o : FileCollaborators File OsFile) (relPath : string) (flags : Z)
  : Errno + File :=
  if String.eqb relPath ConfDefaultName then
    loopbackfs_Open o ConfReverseName flags
  else if isDirIV relPath then NewDirIVFile o (relDir relPath)
  else if isFiltered c relPath then inl EPERM
  else
    match abs_decryptPath c relPath with
    | inl err => inl err
    | inr absPath =>
        match os_OpenFile o absPath flags 0x1b6 with
        | inl err => inl err
        | inr f => NewFile o f
        end
    end.

(** The filesystem after a series of [GetAttr] requests, in order. *)
Definition GetAttr_seq (c : Collaborators) (relPaths : list string)
    (rfs : reverseFS) : reverseFS :=
  fold_left (fun rfs relPath => snd (GetAttr c relPath rfs)) relPaths rfs.

(** The inode table and the generator agree: every recorded number has
    been handed out by the generator, which starts at 1. *)
Definition inodes_consistent (rfs : reverseFS) : Prop :=
  1 <= inoGen rfs
  /\ forall di v, inoMap rfs !! di = Some v -> 2 <= v <= inoGen rfs.

(** [relPath] is an ordinary name of the view: not the configuration file,
    not a virtual [gocryptfs.diriv], not filtered, and it decrypts to a
    backing file on which [Lstat] ([Stat] for the root) gives [st]. *)
Definition resolves (c : Collaborators) (relPath : string) (st : Stat_t)
  : Prop :=
  relPath <> ConfDefaultName
  /\ isDirIV relPath = false
  /\ isFiltered c relPath = false
  /\ exists cPath absPath,
      decryptPath c relPath = inr cPath
      /\ abs c cPath None = inr absPath
      /\ (if String.eqb cPath EmptyString
          then os_Stat c absPath else os_Lstat c absPath) = inr st.

(** The same collaborators with another filter. *)
Definition with_isFiltered (c : Collaborators) (filter : string -> bool)
  : Collaborators :=
  {| decryptPath := decryptPath c;
     abs := abs c;
     isFiltered := filter;
     EncryptName := EncryptName c;
     deriveDirIV := deriveDirIV c;
     HashLongName := HashLongName c;
     os_Stat := os_Stat c;
     os_Lstat := os_Lstat c;
     syscall_Access := syscall_Access c;
     loopbackfs_GetAttr := loopbackfs_GetAttr c;
     loopbackfs_OpenDir := loopbackfs_OpenDir c |}.

(** The test [fi.Mode().IsRegular() && st.Nlink > 1] of [inoAwareStat]. *)
Definition hard_linked (st : Stat_t) : bool :=
  fi_IsRegular st && (1 <? st_Nlink st).

End ReverseOpen.

(** ** fsck: the walk over a forward mount

    The consumer side of the corruption reports.  Each of [dir], [file] and
    [xattrs] runs a goroutine for the duration of one filesystem call (of
    the read loop, in [file]) that receives items from [fs.CorruptItems]
    and marks them; the goroutine has finished its last mark when the
    caller's send on [done] returns.  A filesystem call is therefore
    modelled with the items received while it ran as a further result, and
    the marks of the goroutine are applied before the caller goes on.  In
    [file] the goroutine and the caller mark the same string, so their
    order does not show in the list.  What is printed is left out. *)

Module Fsck.
Import Fuse.

Definition S_IFLNK : Z := 0xa000.
Definition O_RDONLY : Z := 0.

Definition i64 (x : Z) : Z := (x + 2 ^ 63) mod 2 ^ 64 - 2 ^ 63.

(** [filepath.Join] of two elements: empty elements are ignored and the
    result is cleaned. *)
Definition Join (a b : string) : string :=
  if negb (String.eqb a EmptyString)
  then Filepath.Clean (String.append a (String Filepath.Separator b))
  else if negb (String.eqb b EmptyString) then Filepath.Clean b
  else EmptyString.

(** [strings.Compare]: byte-wise lexicographic order. *)
Definition strings_Compare (a b : string) : Z :=
  match String.compare a b with
  | Lt => -1
  | Eq => 0
  | Gt => 1
  end.

(** *** [sortableDirEntries]

    Indexing a slice out of range panics: [None]. *)

Definition Len (s : list DirEntry) : nat := length s.

Definition Swap (s : list DirEntry) (i j : nat) : option (list DirEntry) :=
  match s !! i, s !! j with
  | Some x, Some y => Some (<[j := x]> (<[i := y]> s))
  | _, _ => None
  end.

Definition Less (s : list DirEntry) (i j : nat) : option bool :=
  match s !! i, s !! j with
  | Some x, Some y => Some (strings_Compare (de_Name x) (de_Name y) <? 0)
  | _, _ => None
  end.

(** *** The walk *)

(** [ck.fs], the forward filesystem, and [sort.Sort].  The last component
    of the results of [OpenDir], [Read] and [ListXAttr] is the list of
    items received from [CorruptItems] while the call ran.  A file handle
    is the path it was opened on. *)
Record FS := {
  fs_OpenDir : string -> list DirEntry * Status * list string;
  fs_Readlink : string -> Status;
  fs_Open : string -> Z -> Status;
  fs_Read : string -> Z -> Z * Status * list string;
  fs_ListXAttr : string -> list string * Status * list string;
  fs_GetXAttr : string -> string -> Status;
  sort_Sort : list DirEntry -> list DirEntry
}.

Record fsckObj := { corruptList : list string }.

Definition markCorrupt (ck : fsckObj) (path : string) : fsckObj :=
  {| corruptList := corruptList ck ++ [path] |}.

(** The goroutine: every item received is marked under the name [name]
    gives it. *)
Definition receive (name : string -> string) (items : list string)
    (ck : fsckObj) : fsckObj :=
  fold_left (fun ck item => markCorrupt ck (name item)) items ck.

Definition xattrs (fs : FS) (path : string) (ck : fsckObj) : fsckObj :=
  let '(attrs, status, items) := fs_ListXAttr fs path in
  let ck :=
    receive (fun item => String.append path (String.append " xattr:" item))
            items ck in
  if negb (Ok status) then markCorrupt ck path
  else
    fold_left (fun ck a =>
                 if negb (Ok (fs_GetXAttr fs path a))
                 then markCorrupt ck path else ck)
              attrs ck.

Definition symlink (fs : FS) (path : string) (ck : fsckObj) : fsckObj :=
  if negb (Ok (fs_Readlink fs path)) then markCorrupt ck path else ck.

(** The loop of [file]: read at [off] until a read fails or returns no
    bytes.  [None] when the fuel runs out first. *)
Fixpoint read_loop (fs : FS) (fuel : nat) (path : string) (off : Z)
    (ck : fsckObj) : option fsckObj :=
  match fuel with
  | O => None
  | S fuel =>
      let '(size, status, items) := fs_Read fs path off in
      let ck := receive (fun _ => path) items ck in
      if negb (Ok status) then Some (markCorrupt ck path)
      else if size =? 0 then Some ck
      else read_loop fs fuel path (i64 (off + size)) ck
  end.

Definition file (fs : FS) (fuel : nat) (path : string) (ck : fsckObj)
  : option fsckObj :=
  let ck := xattrs fs path ck in
  if negb (Ok (fs_Open fs path O_RDONLY)) then Some (markCorrupt ck path)
  else read_loop fs fuel path 0 ck.

(** The loop of [dir] over the sorted entries; [dir_rec] is [ck.dir]. *)
Fixpoint dir_entries (fs : FS) (dir_rec : string -> fsckObj -> option fsckObj)
    (fuel : nat) (path : string) (entries : list DirEntry) (ck : fsckObj)
  : option fsckObj :=
  match entries with
  | [] => Some ck
  | entry :: rest =>
      if String.eqb (de_Name entry) "." || String.eqb (de_Name entry) ".."
      then dir_entries fs dir_rec fuel path rest ck
      else
        let nextPath := Join path (de_Name entry) in
        let filetype := Z.land (de_Mode entry) S_IFMT in
        let checked :=
          if filetype =? S_IFDIR then dir_rec nextPath ck
          else if filetype =? S_IFREG then file fs fuel nextPath ck
          else if filetype =? S_IFLNK then Some (symlink fs nextPath ck)
          else Some ck in
        match checked with
        | None => None
        | Some ck => dir_entries fs dir_rec fuel path rest ck
        end
  end.

Fixpoint dir (fs : FS) (fuel : nat) (path : string) (ck : fsckObj)
  : option fsckObj :=
  match fuel with
  | O => None
  | S fuel =>
      let ck := xattrs fs path ck in
      let '(entries, status, items) := fs_OpenDir fs path in
      let ck := receive (fun item => Join path item) items ck in
      if negb (Ok status) then Some (markCorrupt ck path)
      else dir_entries fs (dir fs fuel) fuel path (sort_Sort fs entries) ck
  end.

(** How [fsck] ends: a usage error for a reverse mount, a normal return
    when nothing was marked, and the error exit with the number of entries
    otherwise. *)
Inductive outcome :=
| ExitUsage
| NoProblems
| ExitFsckErrors (corrupt : nat).

Definition fsck (fs : FS) (fuel : nat) (reverse : bool) : option outcome :=
  if reverse then Some ExitUsage
  else
    match dir fs fuel EmptyString {| corruptList := [] |} with
    | None => None
    | Some ck =>
        if (length (corruptList ck) =? 0)%nat then Some NoProblems
        else Some (ExitFsckErrors (length (corruptList ck)))
    end.


(** A mount whose directory tree is well founded and whose files end:
    [rank] decreases from a directory to each subdirectory the walk enters
    (the entries [.] and [..] are skipped), and [reads] decreases from one
    successful, non-empty read to the next. *)
Definition walk_bounded (fs : FS) (rank : string -> nat)
    (reads : string -> Z -> nat) : Prop :=
  (forall path entries status items e,
      fs_OpenDir fs path = (entries, status, items) ->
      In e (sort_Sort fs entries) ->
      String.eqb (de_Name e) "." || String.eqb (de_Name e) ".." = false ->
      Z.land (de_Mode e) S_IFMT = S_IFDIR ->
      (rank (Join path (de_Name e)) < rank path)%nat)
  /\ (forall path off size status items,
        fs_Read fs path off = (size, status, items) ->
        Ok status = true ->
        size <> 0 ->
        (reads path (i64 (off + size)) < reads path off)%nat).

End Fsck.

(** ** More of the small backing directory, and a small forward mount *)

Module FixtureMore.
Import Fuse Reverse ReverseOpen Fixture.

(** The collaborators of [Fixture], with the name [Esingle] filtered. *)
Definition collab_filtered : Collaborators :=
  {| decryptPath := decryptPath collab;
     abs := abs collab;
     isFiltered := fun relPath => String.eqb relPath "Esingle";
     EncryptName := EncryptName collab;
     deriveDirIV := deriveDirIV collab;
     HashLongName := HashLongName collab;
     os_Stat := os_Stat collab;
     os_Lstat := os_Lstat collab;
     syscall_Access := syscall_Access collab;
     loopbackfs_GetAttr := loopbackfs_GetAttr collab;
     loopbackfs_OpenDir := loopbackfs_OpenDir collab |}.

(** File handles that only say how they were made. *)
Definition handles : FileCollaborators string string :=
  {| loopbackfs_Open := fun name _ => inr (String.append "loopback:" name);
     NewDirIVFile := fun dir => inr (String.append "diriv:" dir);
     os_OpenFile := fun absPath _ _ =>
       match lstat absPath with
       | inl e => inl e
       | inr _ => inr absPath
       end;
     NewFile := fun f => inr (String.append "file:" f) |}.

(** What [Lstat] gives for the hard links, the file with one link and the
    directory [sub]. *)
Definition stat_hard : Stat_t := mkstat 77 2 (Z.lor S_IFREG 0x1a4) 4097.
Definition stat_single : Stat_t := mkstat 78 1 (Z.lor S_IFREG 0x1a4) 4096.

End FixtureMore.

Module FsckFixture.
Import Fuse Fsck.

Fixpoint insert_by_name (e : DirEntry) (l : list DirEntry) : list DirEntry :=
  match l with
  | [] => [e]
  | x :: rest =>
      if strings_Compare (de_Name e) (de_Name x) <? 0 then e :: l
      else x :: insert_by_name e rest
  end.

Definition sort_by_name (l : list DirEntry) : list DirEntry :=
  fold_right insert_by_name [] l.

Definition entry (mode : Z) (name : string) : DirEntry :=
  {| de_Mode := mode; de_Name := name |}.

(** A mount with a file [a] that has one unreadable attribute, a directory
    [d] with a file [b] whose first block is corrupt, a symlink [l] that
    cannot be read and a FIFO [p]. *)
Definition damaged : FS :=
  {| fs_OpenDir := fun path =>
       if String.eqb path EmptyString
       then ([entry 0x1000 "p"; entry 0xa000 "l"; entry S_IFDIR "d";
              entry S_IFREG "a"; entry S_IFDIR ".."; entry S_IFDIR "."],
             OK, [])
       else if String.eqb path "d" then ([entry S_IFREG "b"], OK, [])
       else ([], ToStatus (Some ENOTDIR), []);
     fs_Readlink := fun _ => ToStatus (Some EIO);
     fs_Open := fun _ _ => OK;
     fs_Read := fun path off =>
       if String.eqb path "a" && (off =? 0) then (5, OK, [])
       else if String.eqb path "d/b" && (off =? 0)
            then (0, ToStatus (Some EIO), ["12"%string])
            else (0, OK, []);
     fs_ListXAttr := fun path =>
       if String.eqb path "a"
       then (["user.x"%string; "user.y"%string], OK, [])
       else ([], OK, []);
     fs_GetXAttr := fun _ a =>
       if String.eqb a "user.y" then ToStatus (Some EIO) else OK;
     sort_Sort := sort_by_name |}.

Definition three_entries : list DirEntry :=
  [entry S_IFREG "b"; entry S_IFREG "a"; entry S_IFDIR "c"].

Definition damaged_rank (path : string) : nat :=
  if String.eqb path EmptyString then 1%nat else 0%nat.

Definition damaged_reads (path : string) (off : Z) : nat :=
  if off =? 0 then 1%nat else 0%nat.


End FsckFixture.

(** * Properties *)

(** ** Paths *)

Section FilepathFacts.
Import Filepath.

Lemma list_ascii_of_string_append (s t : string) :
  list_ascii_of_string (String.append s t)
  = list_ascii_of_string s ++ list_ascii_of_string t.
Proof. induction s as [|c s IH]; simpl; [done | by rewrite IH]. Qed.

Lemma append_not_empty (s : string) (c : ascii) (t : string) :
  String.eqb (String.append s (String c t)) EmptyString = false.
Proof. apply String.eqb_neq. by destruct s. Qed.

Lemma take_element_stops (l r : list ascii) :
  forallb (fun c => negb (IsPathSeparator c)) l = true ->
  take_element (l ++ Separator :: r) = l.
Proof.
  induction l as [|c l IH]; simpl; [done |].
  intros [Hc Hl]%andb_prop.
  destruct (IsPathSeparator c); [done |]. by rewrite IH.
Qed.

Lemma last_element_chars (d l : list ascii) :
  l <> [] ->
  forallb (fun c => negb (IsPathSeparator c)) l = true ->
  rev (take_element (strip_leading_seps (rev (d ++ Separator :: l)))) = l.
Proof.
  intros Hl Hsep.
  assert (Hrev : forallb (fun c => negb (IsPathSeparator c)) (rev l) = true).
  { apply forallb_forall. intros x Hx%in_rev.
    by apply (proj1 (forallb_forall _ _) Hsep). }
  rewrite rev_app_distr. simpl rev. rewrite <- app_assoc. simpl app.
  destruct (rev l) as [|x r] eqn:E.
  { destruct Hl. apply (f_equal (@rev _)) in E.
    by rewrite rev_involutive in E. }
  simpl in Hrev. apply andb_prop in Hrev as [Hx Hr].
  simpl. destruct (IsPathSeparator x) eqn:Ex; [done |].
  change (x :: r ++ Separator :: rev d)
    with ((x :: r) ++ Separator :: rev d).
  rewrite take_element_stops; [| by simpl; rewrite Ex]. by rewrite <- E, rev_involutive.
Qed.

(** The last element of a path that ends in [/name], for a name without
    separators, is that name. *)
Lemma Base_child (D name : string) :
  name <> EmptyString ->
  forallb (fun c => negb (IsPathSeparator c)) (list_ascii_of_string name)
  = true ->
  Base (String.append D (String Separator name)) = name.
Proof.
  intros Hne Hsep. unfold Base. rewrite append_not_empty.
  rewrite list_ascii_of_string_append.
  change (list_ascii_of_string (String Separator name))
    with (Separator :: list_ascii_of_string name).
  rewrite last_element_chars; [| | done].
  - destruct (list_ascii_of_string name) eqn:E.
    + destruct Hne. rewrite <- (string_of_list_ascii_of_string name).
      by rewrite E.
    + rewrite <- E. apply string_of_list_ascii_of_string.
  - intros E. apply Hne. rewrite <- (string_of_list_ascii_of_string name).
    by rewrite E.
Qed.

Lemma append_cons (ch : ascii) (s t : string) :
  String.append (String ch s) t = String ch (String.append s t).
Proof. reflexivity. Qed.

Lemma append_nil (t : string) : String.append EmptyString t = t.
Proof. reflexivity. Qed.

Lemma split_not_nil (s : string) : split s <> [].
Proof.
  destruct s as [|ch s]; simpl; [done |].
  destruct (IsPathSeparator ch); [done |]. by destruct (split s).
Qed.

Lemma IsPathSeparator_eq (ch : ascii) :
  IsPathSeparator ch = true -> ch = Separator.
Proof. apply Ascii.eqb_eq. Qed.

Lemma split_append (s t : string) :
  split (String.append s (String Separator t)) = split s ++ split t.
Proof.
  induction s as [|ch s IH]; [reflexivity |].
  rewrite append_cons. cbn [split]. rewrite IH.
  destruct (IsPathSeparator ch); [reflexivity |].
  pose proof (split_not_nil s). by destruct (split s).
Qed.

Lemma join_split (s : string) : join_sep (split s) = s.
Proof.
  unfold join_sep. induction s as [|ch s IH]; [reflexivity |].
  cbn [split]. pose proof (split_not_nil s) as Hne.
  destruct (IsPathSeparator ch) eqn:E.
  - apply IsPathSeparator_eq in E as ->.
    destruct (split s) as [|w ws]; [done |].
    change (String.concat "/" (EmptyString :: w :: ws))
      with (String Separator (String.concat "/" (w :: ws))).
    by rewrite IH.
  - destruct (split s) as [|w ws]; [done |].
    destruct ws as [|w' ws].
    + change (String ch w = String ch s). f_equal. exact IH.
    + change (String.concat "/" (String ch w :: w' :: ws))
        with (String ch (String.concat "/" (w :: w' :: ws))).
      by rewrite IH.
Qed.

Lemma clean_real_elements (rooted : bool) (elems out : list string) :
  forallb is_real_element elems = true ->
  fold_left (clean_step rooted) elems out = rev elems ++ out.
Proof.
  revert out. induction elems as [|e elems IH]; intros out; [done |].
  simpl. intros [He Hr]%andb_prop. rewrite IH by done.
  rewrite <- app_assoc. simpl. f_equal.
  unfold clean_step. unfold is_real_element in He.
  destruct (String.eqb e EmptyString), (String.eqb e "."),
    (String.eqb e ".."); simpl in He; done.
Qed.

(** [Clean] leaves a clean relative path alone, also when a separator
    follows it. *)
Lemma Clean_trailing_sep (D : string) :
  is_clean_relative D = true ->
  Clean (String.append D (String Separator EmptyString)) = D.
Proof.
  intros Hc. destruct D as [|ch D']; [by vm_compute in Hc |].
  assert (Hch : IsPathSeparator ch = false).
  { unfold is_clean_relative in Hc. cbn [split] in Hc.
    by destruct (IsPathSeparator ch). }
  unfold Clean. rewrite append_not_empty.
  change (match String.append (String ch D') (String Separator EmptyString)
          with
          | EmptyString => false
          | String c _ => IsPathSeparator c
          end) with (IsPathSeparator ch).
  rewrite Hch. unfold is_clean_relative in Hc.
  rewrite split_append. simpl (split EmptyString).
  rewrite fold_left_app.
  rewrite (clean_real_elements false (split (String ch D')) []) by done.
  cbn [fold_left].
  assert (Hskip : forall out, clean_step false out EmptyString = out)
    by reflexivity.
  rewrite Hskip, app_nil_r, rev_involutive, join_split.
  reflexivity.
Qed.

Lemma upto_last_sep_none (name : string) :
  forallb (fun ch => negb (IsPathSeparator ch)) (list_ascii_of_string name)
  = true ->
  upto_last_sep name = EmptyString.
Proof.
  intros Hn. destruct name as [|ch name]; [reflexivity |].
  cbn [upto_last_sep].
  replace (existsb IsPathSeparator (list_ascii_of_string (String ch name)))
    with false; [reflexivity |].
  symmetry. apply not_true_is_false. intros (x & Hin & Hx)%existsb_exists.
  pose proof (proj1 (forallb_forall _ _) Hn x Hin) as Hx'.
  cbv beta in Hx'. by rewrite Hx in Hx'.
Qed.

Lemma upto_last_sep_child (D name : string) :
  forallb (fun ch => negb (IsPathSeparator ch)) (list_ascii_of_string name)
  = true ->
  upto_last_sep (String.append D (String Separator name))
  = String.append D (String Separator EmptyString).
Proof.
  intros Hn. induction D as [|ch D IH].
  - rewrite !append_nil.
    cbn [upto_last_sep list_ascii_of_string existsb].
    replace (IsPathSeparator Separator) with true by reflexivity.
    simpl orb. cbv iota. by rewrite upto_last_sep_none.
  - rewrite !append_cons. cbn [upto_last_sep]. rewrite IH.
    replace (existsb IsPathSeparator
               (list_ascii_of_string
                  (String ch (String.append D (String Separator name)))))
      with true; [reflexivity |].
    symmetry. apply existsb_exists. exists Separator. split; [| reflexivity].
    right. rewrite list_ascii_of_string_append. apply in_or_app. right.
    by left.
Qed.

(** The directory of [D/name] is [D], for a clean relative [D] and a name
    without separators. *)
Lemma Dir_child (D name : string) :
  is_clean_relative D = true ->
  forallb (fun ch => negb (IsPathSeparator ch)) (list_ascii_of_string name)
  = true ->
  Dir (String.append D (String Separator name)) = D.
Proof.
  intros Hc Hn. unfold Dir. rewrite upto_last_sep_child by done.
  by apply Clean_trailing_sep.
Qed.

End FilepathFacts.

(** ** Reverse mode *)

Section ReverseFacts.
Import Fuse Configfile Nametransform Contentenc Reverse.

Variable c : Collaborators.

Lemma isDirIV_child (D : string) :
  isDirIV (String.append D "/gocryptfs.diriv") = true.
Proof.
  unfold isDirIV.
  change (String.append D "/gocryptfs.diriv")
    with (String.append D (String Filepath.Separator DirIVFilename)).
  rewrite (Base_child D DirIVFilename); [reflexivity | done | reflexivity].
Qed.

(** The parent of the virtual file of a clean relative directory [D] is
    [D] itself, and the parent of the one of the root is the root. *)
Lemma relDir_child (D : string) :
  Filepath.is_clean_relative D = true ->
  relDir (String.append D "/gocryptfs.diriv") = D.
Proof.
  intros Hc. unfold relDir.
  change (String.append D "/gocryptfs.diriv")
    with (String.append D (String Filepath.Separator DirIVFilename)).
  rewrite Dir_child; [| done | reflexivity].
  destruct (String.eqb_spec D ".") as [->|]; [by vm_compute in Hc | done].
Qed.

Lemma relDir_root : relDir "gocryptfs.diriv" = EmptyString.
Proof. reflexivity. Qed.

Lemma isDirIV_not_conf (relPath : string) :
  isDirIV relPath = true -> String.eqb relPath ConfDefaultName = false.
Proof.
  intros H. destruct (String.eqb_spec relPath ConfDefaultName) as [->|];
    [| done].
  vm_compute in H. discriminate.
Qed.

Lemma GetAttr_dirIV (relPath : string) (rfs : reverseFS) :
  isDirIV relPath = true ->
  GetAttr c relPath rfs = dirIVAttr c relPath rfs.
Proof.
  intros H. unfold GetAttr. by rewrite (isDirIV_not_conf _ H), H.
Qed.

Lemma next_differs (gen : Z) : fst (next gen) <> gen.
Proof.
  unfold next, u64. simpl. intros E.
  pose proof (Z.mod_pos_bound (gen + 1) (2 ^ 64) ltac:(lia)) as Hb.
  assert (Hin : 0 <= gen < 2 ^ 64) by lia.
  destruct (Z.eq_dec gen (2 ^ 64 - 1)) as [->|Hne].
  - vm_compute in E. discriminate.
  - rewrite Z.mod_small in E; lia.
Qed.

End ReverseFacts.

Section OpenDirFacts.
Import Fuse Configfile Nametransform Reverse Listing.

Variable c : Collaborators.
Variable cipherPath : string.

Lemma insert_after_prefix (done todo : list DirEntry) (e e' : DirEntry) :
  <[length done := e']> (done ++ e :: todo) = done ++ e' :: todo.
Proof. rewrite insert_app_r_alt by lia. by rewrite Nat.sub_diag. Qed.

Lemma OpenDir_iter_at (done todo : list DirEntry) (e : DirEntry)
    (virtualFiles : list DirEntry) :
  OpenDir_iter c cipherPath (deriveDirIV c cipherPath)
               (done ++ e :: todo, virtualFiles) (length done)
  = ((done ++ [view_entry c cipherPath e]) ++ todo,
     virtualFiles ++ sidecars c cipherPath e).
Proof.
  unfold OpenDir_iter.
  rewrite list_lookup_middle by done.
  unfold view_entry, view_name, sidecars, is_conf_entry, encrypted_name,
    dotNameFile.
  destruct (String.eqb cipherPath EmptyString
            && String.eqb (de_Name e) ConfReverseName).
  - rewrite app_nil_r, <- app_assoc. simpl.
    by rewrite insert_after_prefix.
  - destruct (NAME_MAX <?
              len (EncryptName c (de_Name e) (deriveDirIV c cipherPath))).
    + rewrite <- app_assoc. simpl. by rewrite insert_after_prefix.
    + rewrite app_nil_r, <- app_assoc. simpl.
      by rewrite insert_after_prefix.
Qed.

(** The loop over the indices, started anywhere in the slice. *)
Lemma OpenDir_loop_from (todo done virtualFiles : list DirEntry) :
  fold_left (OpenDir_iter c cipherPath (deriveDirIV c cipherPath))
            (seq (length done) (length todo))
            (done ++ todo, virtualFiles)
  = (done ++ map (view_entry c cipherPath) todo,
     virtualFiles ++ flat_map (sidecars c cipherPath) todo).
Proof.
  revert done virtualFiles.
  induction todo as [|e todo IH]; intros done virtualFiles.
  - simpl. by rewrite (app_nil_r virtualFiles).
  - cbn [length seq fold_left map flat_map]. rewrite OpenDir_iter_at.
    replace (S (length done))
      with (length (done ++ [view_entry c cipherPath e]))
      by (rewrite length_app; simpl; lia).
    rewrite IH. by rewrite <- !app_assoc.
Qed.

Lemma OpenDir_loop (entries : list DirEntry) :
  fold_left (OpenDir_iter c cipherPath (deriveDirIV c cipherPath))
            (seq 0 (length entries)) (entries, [dirIVEntry])
  = (map (view_entry c cipherPath) entries,
     dirIVEntry :: flat_map (sidecars c cipherPath) entries).
Proof. exact (OpenDir_loop_from entries [] [dirIVEntry]). Qed.

Lemma OpenDir_listing (relPath : string) (entries : list DirEntry)
    (status : Status) :
  decryptPath c cipherPath = inr relPath ->
  loopbackfs_OpenDir c relPath = (Some entries, status) ->
  OpenDir c cipherPath
  = (Some (map (view_entry c cipherPath) entries
           ++ dirIVEntry :: flat_map (sidecars c cipherPath) entries), OK).
Proof.
  intros Hd Ho. unfold OpenDir. rewrite Hd, Ho.
  change {| de_Mode := Z.lor S_IFREG 0x100; de_Name := DirIVFilename |}
    with dirIVEntry.
  by rewrite OpenDir_loop.
Qed.

End OpenDirFacts.

(** ** The virtual [gocryptfs.diriv] files *)

Section DirIVClaims.
Import Fuse Configfile Nametransform Contentenc Reverse Listing.

Variable c : Collaborators.

(** C9. For every path whose last element is [gocryptfs.diriv] and every
    access mode, [Access] returns OK, whatever the backing filesystem and
    the other collaborators are: neither the path translation nor the
    access check on the backing file is consulted. *)
Theorem Access_dirIV_OK (relPath : string) (mode : Z) :
  Filepath.Base relPath = DirIVFilename ->
  Access c relPath mode = OK.
Proof.
  intros H. unfold Access, isDirIV. by rewrite H.
Qed.

Lemma dirIVAttr_cases (relPath : string) (rfs : reverseFS) :
  dirIVAttr c relPath rfs =
  match decryptPath c (relDir relPath) with
  | inl err => (inl err, rfs)
  | inr dir =>
      match loopbackfs_GetAttr c dir with
      | inl status => (inl status, rfs)
      | inr a =>
          if negb (IsDir a) then (inl ENOTDIR, rfs)
          else if Z.land (Mode a) S_IXUSR =? 0 then (inl EPERM, rfs)
          else (inr (with_Mode_Size_Nlink_Ino a DirIVMode DirIVLen 1
                       (fst (next (inoGen rfs)))),
                {| inoGen := snd (next (inoGen rfs));
                   inoMap := inoMap rfs |})
      end
  end.
Proof. reflexivity. Qed.

(** C10. [GetAttr] on a [gocryptfs.diriv] path: ENOTDIR when the decrypted
    parent exists and is not a directory, EPERM when it is a directory
    whose mode lacks the owner-execute bit, the synthesized attribute when
    it is a directory with that bit; and the status is OK exactly in the
    last case. *)
Theorem GetAttr_dirIV_status (relPath : string) (rfs : reverseFS) :
  isDirIV relPath = true ->
  (forall dir a,
      decryptPath c (relDir relPath) = inr dir ->
      loopbackfs_GetAttr c dir = inr a ->
      (IsDir a = false -> GetAttr c relPath rfs = (inl ENOTDIR, rfs))
      /\ (IsDir a = true -> Z.land (Mode a) S_IXUSR = 0 ->
          GetAttr c relPath rfs = (inl EPERM, rfs))
      /\ (IsDir a = true -> Z.land (Mode a) S_IXUSR <> 0 ->
          fst (GetAttr c relPath rfs)
          = inr (with_Mode_Size_Nlink_Ino a DirIVMode DirIVLen 1
                   (fst (next (inoGen rfs))))))
  /\ (status_of (fst (GetAttr c relPath rfs)) = OK <->
      exists dir a,
        decryptPath c (relDir relPath) = inr dir
        /\ loopbackfs_GetAttr c dir = inr a
        /\ IsDir a = true
        /\ Z.land (Mode a) S_IXUSR <> 0).
Proof.
  intros Hiv. rewrite (GetAttr_dirIV c _ _ Hiv), dirIVAttr_cases.
  split.
  - intros dir a Hd Ha. rewrite Hd, Ha. repeat split.
    + by intros ->.
    + intros -> Hx. simpl. by rewrite Hx.
    + intros -> Hx. simpl.
      by destruct (Z.eqb_spec (Z.land (Mode a) S_IXUSR) 0).
  - destruct (decryptPath c (relDir relPath)) as [err|dir] eqn:Hd.
    { split; [done |]. by intros (? & ? & [=] & _). }
    destruct (loopbackfs_GetAttr c dir) as [status|a] eqn:Ha.
    { split; [done |]. intros (d & a & [= <-] & Ha' & _). congruence. }
    destruct (IsDir a) eqn:Hdir; simpl.
    2:{ split; [done |]. intros (d & a' & [= <-] & Ha' & Hdir' & _).
        congruence. }
    destruct (Z.eqb_spec (Z.land (Mode a) S_IXUSR) 0) as [Hx|Hx]; simpl.
    { split; [done |]. intros (d & a' & [= <-] & Ha' & _ & Hx').
      congruence. }
    split; [| done]. intros _. by exists dir, a.
Qed.

(** C6. When the decrypted parent of a [gocryptfs.diriv] path exists, is a
    directory and has the owner-execute bit, [GetAttr] returns a
    regular-file attribute with permission bits 0400, size 16 and link
    count 1, with the timestamps of the parent directory and with the next
    number of the inode generator, which differs from the number handed
    out before it; and whenever the backing directory can be listed,
    [OpenDir] succeeds and its result contains the entry
    [gocryptfs.diriv]. *)
Theorem dirIV_synthesized (relPath dir : string) (a : Attr)
    (rfs : reverseFS) :
  isDirIV relPath = true ->
  decryptPath c (relDir relPath) = inr dir ->
  loopbackfs_GetAttr c dir = inr a ->
  IsDir a = true ->
  Z.land (Mode a) S_IXUSR <> 0 ->
  (exists a',
      GetAttr c relPath rfs
      = (inr a', {| inoGen := snd (next (inoGen rfs));
                    inoMap := inoMap rfs |})
      /\ IsRegular a' = true
      /\ Z.land (Mode a') 0x1ff = 0x100
      /\ Size a' = 16
      /\ Nlink a' = 1
      /\ (Atime a', Mtime a', Ctime a') = (Atime a, Mtime a, Ctime a)
      /\ (Atimensec a', Mtimensec a', Ctimensec a')
         = (Atimensec a, Mtimensec a, Ctimensec a)
      /\ Ino a' = fst (next (inoGen rfs))
      /\ Ino a' <> inoGen rfs)
  /\ (forall cipherPath plainDir entries status,
        decryptPath c cipherPath = inr plainDir ->
        loopbackfs_OpenDir c plainDir = (Some entries, status) ->
        exists listing,
          OpenDir c cipherPath = (Some listing, OK)
          /\ In {| de_Mode := Z.lor S_IFREG 0x100;
                   de_Name := "gocryptfs.diriv" |} listing).
Proof.
  intros Hiv Hd Ha Hdir Hx. split.
  - rewrite (GetAttr_dirIV c _ _ Hiv), dirIVAttr_cases, Hd, Ha, Hdir.
    simpl negb. cbv iota.
    destruct (Z.eqb_spec (Z.land (Mode a) S_IXUSR) 0) as [|_]; [done |].
    eexists. split; [reflexivity |].
    repeat split. simpl. apply next_differs.
  - intros cipherPath plainDir entries status Hd' Ho.
    eexists. split; [by apply (OpenDir_listing c cipherPath plainDir
                                 entries status) |].
    apply in_or_app. right. by left.
Qed.

End DirIVClaims.

(** ** Directory listings *)

Section ListingClaims.
Import Fuse Configfile Nametransform Reverse Listing.

Variable c : Collaborators.

Lemma lookup_map {A B} (f : A -> B) (l : list A) (i : nat) (x : A) :
  l !! i = Some x -> (map f l ++ []) !! i = Some (f x).
Proof.
  rewrite app_nil_r. revert i.
  induction l as [|y l IH]; intros [|i]; simpl; try done.
  - by intros [= ->].
  - apply IH.
Qed.

Lemma lookup_listing_entry (cipherPath : string) (entries rest : list DirEntry)
    (i : nat) (e : DirEntry) :
  entries !! i = Some e ->
  (map (view_entry c cipherPath) entries ++ rest) !! i
  = Some (view_entry c cipherPath e).
Proof.
  intros H. pose proof (lookup_map (view_entry c cipherPath) _ _ _ H) as Hm.
  rewrite app_nil_r in Hm. by apply lookup_app_l_Some.
Qed.

(** C7. For an entry of the backing directory whose name is encrypted
    (every entry but the configuration file in the root): when the
    encrypted name is longer than NAME_MAX, the listing has the hashed
    long name in the entry's place and also contains the sidecar entry,
    named by the hashed name followed by [.name]; when the encrypted name
    fits, the listing has the encrypted name in place and the entry
    contributes no sidecar.  The listing is the renamed entries, then
    [gocryptfs.diriv], then the sidecars in order. *)
Theorem OpenDir_long_names (cipherPath relPath : string)
    (entries : list DirEntry) (status : Status) :
  decryptPath c cipherPath = inr relPath ->
  loopbackfs_OpenDir c relPath = (Some entries, status) ->
  exists listing,
    OpenDir c cipherPath = (Some listing, OK)
    /\ listing = map (view_entry c cipherPath) entries
                 ++ dirIVEntry :: flat_map (sidecars c cipherPath) entries
    /\ forall i e,
        entries !! i = Some e ->
        is_conf_entry cipherPath e = false ->
        let cName := EncryptName c (de_Name e) (deriveDirIV c cipherPath) in
        let sidecar :=
          {| de_Mode := Z.lor S_IFREG 0x180;
             de_Name := String.append (HashLongName c cName) ".name" |} in
        (NAME_MAX < len cName ->
           listing !! i = Some (with_Name e (HashLongName c cName))
           /\ sidecars c cipherPath e = [sidecar]
           /\ In sidecar listing)
        /\ (len cName <= NAME_MAX ->
           listing !! i = Some (with_Name e cName)
           /\ sidecars c cipherPath e = []).
Proof.
  intros Hd Ho. eexists. split; [by eapply OpenDir_listing |].
  split; [reflexivity |].
  intros i e Hi Hconf cName sidecar.
  rewrite (lookup_listing_entry _ _ _ _ _ Hi).
  unfold view_entry, view_name. rewrite Hconf.
  unfold encrypted_name. fold cName.
  split; intros Hlen.
  - assert (Hs : sidecars c cipherPath e = [sidecar]).
    { unfold sidecars, dotNameFile, encrypted_name. rewrite Hconf.
      fold cName. by rewrite (proj2 (Z.ltb_lt _ _) Hlen). }
    rewrite (proj2 (Z.ltb_lt _ _) Hlen).
    split; [reflexivity |]. split; [exact Hs |].
    apply in_or_app. right. right. apply in_flat_map.
    exists e. split.
    + apply list_elem_of_In. by eapply list_elem_of_lookup_2.
    + rewrite Hs. by left.
  - unfold sidecars, encrypted_name. rewrite Hconf. fold cName.
    by rewrite (proj2 (Z.ltb_ge _ _) Hlen).
Qed.

End ListingClaims.

(** ** Stat: inode numbers and sizes *)

Section StatClaims.
Import Fuse Configfile Nametransform Contentenc Reverse.

Variable c : Collaborators.

Lemma u64_small (x : Z) : 0 <= x < 2 ^ 64 -> u64 x = x.
Proof. intros H. unfold u64. by apply Z.mod_small. Qed.

(** The two branches of [inoAwareStat] on a file that can be stat'ed. *)
Lemma inoAwareStat_found (relPlainPath absPath : string) (st : Stat_t)
    (rfs : reverseFS) :
  abs c relPlainPath None = inr absPath ->
  (if String.eqb relPlainPath EmptyString
   then os_Stat c absPath else os_Lstat c absPath) = inr st ->
  inoAwareStat c relPlainPath rfs =
  if fi_IsRegular st && (1 <? st_Nlink st) then
    let di := (st_Dev st, st_Ino st) in
    let stableIno := default 0 (inoMap rfs !! di) in
    (inr (FromStat (with_st_Ino st stableIno)),
     if stableIno =? 0
     then {| inoGen := snd (next (inoGen rfs));
             inoMap := <[di := fst (next (inoGen rfs))]> (inoMap rfs) |}
     else rfs)
  else
    (inr (FromStat (with_st_Ino st (fst (next (inoGen rfs))))),
     {| inoGen := snd (next (inoGen rfs)); inoMap := inoMap rfs |}).
Proof.
  intros Ha Hs. unfold inoAwareStat. rewrite Ha, Hs. reflexivity.
Qed.

Lemma inoAwareStat_size (relPlainPath absPath : string) (st : Stat_t)
    (rfs : reverseFS) :
  abs c relPlainPath None = inr absPath ->
  (if String.eqb relPlainPath EmptyString
   then os_Stat c absPath else os_Lstat c absPath) = inr st ->
  exists a rfs',
    inoAwareStat c relPlainPath rfs = (inr a, rfs')
    /\ Size a = u64 (st_Size st) /\ Mode a = st_Mode st.
Proof.
  intros Ha Hs. rewrite (inoAwareStat_found _ _ _ _ Ha Hs).
  destruct (fi_IsRegular st && (1 <? st_Nlink st)); eauto.
Qed.

(** The path [GetAttr] takes for an ordinary encrypted name. *)
Lemma GetAttr_plain (relPath cPath : string) (rfs : reverseFS) :
  relPath <> ConfDefaultName ->
  isDirIV relPath = false ->
  isFiltered c relPath = false ->
  decryptPath c relPath = inr cPath ->
  GetAttr c relPath rfs =
  match inoAwareStat c cPath rfs with
  | (inl status, rfs') => (inl status, rfs')
  | (inr a, rfs') =>
      if IsRegular a
      then (inr (with_Size a (PlainSizeToCipherSize (Size a))), rfs')
      else (inr a, rfs')
  end.
Proof.
  intros Hc Hiv Hf Hd. unfold GetAttr.
  rewrite (proj2 (String.eqb_neq _ _) Hc), Hiv, Hf, Hd. reflexivity.
Qed.

(** The ciphertext size, block by block. *)
Lemma PlainSizeToCipherSize_blocks (p : Z) :
  0 < p ->
  PlainSizeToCipherSize p
  = 18 + 4128 * (p / 4096)
    + (if p mod 4096 =? 0 then 0 else p mod 4096 + 32).
Proof.
  intros Hp. unfold PlainSizeToCipherSize, HEADER, CBS, PBS, IV_LEN, TAG_LEN.
  destruct (Z.eqb_spec p 0) as [|_]; [lia |].
  destruct (Z.eqb_spec (p mod 4096) 0) as [Hm|Hm].
  - replace ((p + 4096 - 1) / 4096) with (p / 4096); [lia |].
    pose proof (Z.div_mod p 4096 ltac:(lia)) as E.
    apply (Z.div_unique _ _ _ 4095); lia.
  - pose proof (Z.div_mod p 4096 ltac:(lia)) as E.
    pose proof (Z.mod_pos_bound p 4096 ltac:(lia)) as B.
    replace ((p + 4096 - 1) / 4096) with (p / 4096 + 1); [lia |].
    apply (Z.div_unique _ _ _ (p mod 4096 - 1)); lia.
Qed.

(** C3 (amended). For a path of the view other than [gocryptfs.conf] that
    is not a [gocryptfs.diriv] path, is not filtered and decrypts to a
    regular backing file of size [p], [GetAttr] reports the ciphertext
    size of [p]: 0 for [p = 0], and for [p > 0] the 18-byte header, 4128
    bytes per full 4096-byte block, and the remainder plus 32 for a final
    partial block. *)
Theorem GetAttr_regular_size (relPath cPath absPath : string) (st : Stat_t)
    (rfs : reverseFS) :
  relPath <> ConfDefaultName ->
  isDirIV relPath = false ->
  isFiltered c relPath = false ->
  decryptPath c relPath = inr cPath ->
  abs c cPath None = inr absPath ->
  (if String.eqb cPath EmptyString
   then os_Stat c absPath else os_Lstat c absPath) = inr st ->
  fi_IsRegular st = true ->
  0 <= st_Size st < 2 ^ 63 ->
  exists a rfs',
    GetAttr c relPath rfs = (inr a, rfs')
    /\ Size a = PlainSizeToCipherSize (st_Size st)
    /\ (st_Size st = 0 -> Size a = 0)
    /\ (0 < st_Size st ->
        Size a = 18 + 4128 * (st_Size st / 4096)
                 + (if st_Size st mod 4096 =? 0 then 0
                    else st_Size st mod 4096 + 32)).
Proof.
  intros Hc Hiv Hf Hd Ha Hs Hreg Hsz.
  rewrite (GetAttr_plain _ _ _ Hc Hiv Hf Hd).
  destruct (inoAwareStat_size _ _ _ rfs Ha Hs) as (a & rfs' & -> & Hsize & Hm).
  assert (Hr : IsRegular a = true).
  { unfold IsRegular. rewrite Hm. exact Hreg. }
  rewrite Hr. rewrite Hsize, u64_small by lia.
  eexists _, _. split; [reflexivity |]. simpl.
  split; [reflexivity |]. split.
  - by intros ->.
  - apply PlainSizeToCipherSize_blocks.
Qed.

(** One [GetAttr] of a regular file with more than one link. *)
Lemma GetAttr_hardlink (relPath cPath absPath : string) (st : Stat_t)
    (rfs : reverseFS) :
  relPath <> ConfDefaultName ->
  isDirIV relPath = false ->
  isFiltered c relPath = false ->
  decryptPath c relPath = inr cPath ->
  abs c cPath None = inr absPath ->
  (if String.eqb cPath EmptyString
   then os_Stat c absPath else os_Lstat c absPath) = inr st ->
  fi_IsRegular st = true ->
  1 < st_Nlink st ->
  let di := (st_Dev st, st_Ino st) in
  let stableIno := default 0 (inoMap rfs !! di) in
  GetAttr c relPath rfs =
  (inr (with_Size (FromStat (with_st_Ino st stableIno))
                  (PlainSizeToCipherSize (u64 (st_Size st)))),
   if stableIno =? 0
   then {| inoGen := snd (next (inoGen rfs));
           inoMap := <[di := fst (next (inoGen rfs))]> (inoMap rfs) |}
   else rfs).
Proof.
  intros Hc Hiv Hf Hd Ha Hs Hreg Hn di stableIno.
  rewrite (GetAttr_plain _ _ _ Hc Hiv Hf Hd).
  rewrite (inoAwareStat_found _ _ _ _ Ha Hs).
  rewrite Hreg, (proj2 (Z.ltb_lt _ _) Hn). simpl andb. cbv iota zeta.
  fold di. fold stableIno.
  replace (IsRegular (FromStat (with_st_Ino st stableIno))) with true
    by (symmetry; exact Hreg).
  reflexivity.
Qed.

(** C1 (what the code does). On a regular backing file with more than one
    link whose device and inode pair is not yet in the table, the first
    [GetAttr] records the next generated number in the table and reports
    inode number 0; the second reports the recorded number, and so does
    the third.  The first two stats of the same hard-linked file thus
    yield different inode numbers. *)
Theorem GetAttr_hardlink_first_stat (relPath cPath absPath : string)
    (st : Stat_t) (rfs : reverseFS) :
  relPath <> ConfDefaultName ->
  isDirIV relPath = false ->
  isFiltered c relPath = false ->
  decryptPath c relPath = inr cPath ->
  abs c cPath None = inr absPath ->
  (if String.eqb cPath EmptyString
   then os_Stat c absPath else os_Lstat c absPath) = inr st ->
  fi_IsRegular st = true ->
  1 < st_Nlink st ->
  inoMap rfs !! (st_Dev st, st_Ino st) = None ->
  0 <= inoGen rfs < 2 ^ 64 - 1 ->
  exists a1 rfs1 a2 rfs2 a3 rfs3,
    GetAttr c relPath rfs = (inr a1, rfs1)
    /\ GetAttr c relPath rfs1 = (inr a2, rfs2)
    /\ GetAttr c relPath rfs2 = (inr a3, rfs3)
    /\ Ino a1 = 0
    /\ Ino a2 = inoGen rfs + 1
    /\ Ino a3 = Ino a2
    /\ Ino a1 <> Ino a2.
Proof.
  intros Hc Hiv Hf Hd Ha Hs Hreg Hn Hmap Hgen.
  pose proof (fun r => GetAttr_hardlink _ _ _ _ r Hc Hiv Hf Hd Ha Hs Hreg Hn)
    as Hstep. cbv zeta in Hstep.
  assert (Hnext : fst (next (inoGen rfs)) = inoGen rfs + 1).
  { unfold next. simpl. apply u64_small. lia. }
  set (rfs1 := {| inoGen := snd (next (inoGen rfs));
                  inoMap := <[(st_Dev st, st_Ino st) :=
                                fst (next (inoGen rfs))]> (inoMap rfs) |}).
  assert (H1 : default 0 (inoMap rfs1 !! (st_Dev st, st_Ino st))
               = inoGen rfs + 1).
  { unfold rfs1. cbn [inoMap]. by rewrite lookup_insert_eq, Hnext. }
  pose proof (Hstep rfs) as E1. rewrite Hmap in E1. simpl in E1.
  fold rfs1 in E1.
  pose proof (Hstep rfs1) as E2. rewrite H1 in E2.
  destruct (Z.eqb_spec (inoGen rfs + 1) 0) as [|_]; [lia |].
  eexists _, rfs1, _, rfs1, _, rfs1.
  split; [exact E1 |]. split; [exact E2 |]. split; [exact E2 |].
  simpl. rewrite !u64_small by lia. repeat split; lia.
Qed.

End StatClaims.

(** ** Runs on the small backing directory *)

Section ReverseRuns.
Import Fuse Configfile Nametransform Contentenc Reverse Listing Fixture.

Lemma Access_dirIV_OK_witness :
  Filepath.Base "Elocked/gocryptfs.diriv" = DirIVFilename
  /\ Access collab "Elocked/gocryptfs.diriv" 1 = OK.
Proof.
  split; [reflexivity |].
  apply (Access_dirIV_OK collab "Elocked/gocryptfs.diriv" 1). reflexivity.
Defined.

(** The parent [locked] is a directory without the owner-execute bit. *)
Lemma GetAttr_dirIV_status_witness :
  isDirIV "Elocked/gocryptfs.diriv" = true
  /\ decryptPath collab (relDir "Elocked/gocryptfs.diriv") = inr "locked"%string
  /\ GetAttr collab "Elocked/gocryptfs.diriv" NewFS = (inl EPERM, NewFS)
  /\ status_of (fst (GetAttr collab "Esub/gocryptfs.diriv" NewFS)) = OK.
Proof.
  split; [reflexivity |]. split; [reflexivity |]. split.
  - pose proof (GetAttr_dirIV_status collab "Elocked/gocryptfs.diriv" NewFS
                  eq_refl) as [Hcases _].
    destruct (Hcases "locked"%string
                (FromStat (mkstat 81 2 (Z.lor S_IFDIR 0x1ad) 4096))
                eq_refl eq_refl) as (_ & Hperm & _).
    apply Hperm; reflexivity.
  - apply (GetAttr_dirIV_status collab "Esub/gocryptfs.diriv" NewFS eq_refl).
    exists "sub"%string, (FromStat (mkstat 80 2 (Z.lor S_IFDIR 0x1ed) 4096)).
    repeat split. vm_compute. discriminate.
Defined.

Lemma dirIV_synthesized_witness :
  isDirIV "Esub/gocryptfs.diriv" = true
  /\ decryptPath collab (relDir "Esub/gocryptfs.diriv") = inr "sub"%string
  /\ (exists a,
        loopbackfs_GetAttr collab "sub" = inr a
        /\ IsDir a = true
        /\ Z.land (Mode a) S_IXUSR <> 0
        /\ exists a',
            fst (GetAttr collab "Esub/gocryptfs.diriv" NewFS) = inr a'
            /\ Mode a' = 0x8100 /\ Size a' = 16 /\ Nlink a' = 1
            /\ Mtime a' = Mtime a /\ Ino a' = 2)
  /\ exists listing,
      OpenDir collab EmptyString = (Some listing, OK)
      /\ In dirIVEntry listing.
Proof.
  split; [reflexivity |]. split; [reflexivity |].
  assert (Hx : Z.land (Mode (FromStat (mkstat 80 2 (Z.lor S_IFDIR 0x1ed) 4096)))
                      S_IXUSR <> 0) by (vm_compute; discriminate).
  destruct (dirIV_synthesized collab "Esub/gocryptfs.diriv" "sub"
              (FromStat (mkstat 80 2 (Z.lor S_IFDIR 0x1ed) 4096)) NewFS
              eq_refl eq_refl eq_refl eq_refl Hx) as [Hattr Hdir].
  split.
  - eexists. split; [reflexivity |]. split; [reflexivity |].
    split; [exact Hx |].
    destruct Hattr as (a' & E & _). exists a'. rewrite E.
    vm_compute in E. injection E as <-. by vm_compute.
  - exact (Hdir EmptyString EmptyString rootEntries OK eq_refl eq_refl).
Defined.

(** The fifth entry of the root has a 255-byte name, encrypted to 256. *)
Lemma OpenDir_long_names_witness :
  decryptPath collab EmptyString = inr EmptyString
  /\ loopbackfs_OpenDir collab EmptyString = (Some rootEntries, OK)
  /\ exists listing,
      OpenDir collab EmptyString = (Some listing, OK)
      /\ length listing = 7%nat
      /\ (de_Name <$> listing !! 4%nat) = Some "gocryptfs.longname.Exxxxxxx"%string
      /\ (de_Name <$> listing !! 6%nat)
         = Some "gocryptfs.longname.Exxxxxxx.name"%string
      /\ (de_Name <$> listing !! 0%nat) = Some "Ehard1"%string.
Proof.
  split; [reflexivity |]. split; [reflexivity |].
  destruct (OpenDir_long_names collab EmptyString EmptyString rootEntries OK
              eq_refl eq_refl) as (listing & E & -> & _).
  eexists. split; [exact E |]. by vm_compute.
Defined.

Lemma GetAttr_regular_size_witness :
  ("Ehard1"%string <> ConfDefaultName)
  /\ isDirIV "Ehard1" = false
  /\ isFiltered collab "Ehard1" = false
  /\ decryptPath collab "Ehard1" = inr "hard1"%string
  /\ abs collab "hard1" None = inr "/plain/hard1"%string
  /\ os_Lstat collab "/plain/hard1"
     = inr (mkstat 77 2 (Z.lor S_IFREG 0x1a4) 4097)
  /\ exists a rfs',
      GetAttr collab "Ehard1" NewFS = (inr a, rfs') /\ Size a = 4179.
Proof.
  split; [discriminate |]. do 5 (split; [reflexivity |]).
  destruct (GetAttr_regular_size collab "Ehard1" "hard1" "/plain/hard1"
              (mkstat 77 2 (Z.lor S_IFREG 0x1a4) 4097) NewFS)
    as (a & rfs' & E & Hsz & _); try reflexivity; try discriminate.
  { simpl. lia. }
  exists a, rfs'. split; [exact E |]. rewrite Hsz. reflexivity.
Defined.

(** C3, as stated, fails on the configuration file: the backing
    [.gocryptfs.reverse.conf] is a regular file of 300 bytes, and [GetAttr]
    on [gocryptfs.conf] reports 300, not the ciphertext size 350. *)
Lemma GetAttr_conf_size_untranslated :
  exists st a rfs',
    os_Lstat collab "/plain/.gocryptfs.reverse.conf" = inr st
    /\ fi_IsRegular st = true
    /\ st_Size st = 300
    /\ GetAttr collab "gocryptfs.conf" NewFS = (inr a, rfs')
    /\ IsRegular a = true
    /\ Size a = 300
    /\ PlainSizeToCipherSize 300 = 350
    /\ Size a <> PlainSizeToCipherSize (st_Size st).
Proof.
  eexists _, _, _. split; [reflexivity |].
  split; [reflexivity |]. split; [reflexivity |].
  split; [reflexivity |]. split; [reflexivity |].
  split; [reflexivity |]. split; [reflexivity |].
  vm_compute. discriminate.
Qed.

Lemma GetAttr_hardlink_first_stat_witness :
  ("Ehard1"%string <> ConfDefaultName)
  /\ isDirIV "Ehard1" = false
  /\ isFiltered collab "Ehard1" = false
  /\ decryptPath collab "Ehard1" = inr "hard1"%string
  /\ abs collab "hard1" None = inr "/plain/hard1"%string
  /\ os_Lstat collab "/plain/hard1"
     = inr (mkstat 77 2 (Z.lor S_IFREG 0x1a4) 4097)
  /\ inoMap NewFS !! (2049, 77) = None
  /\ exists a1 rfs1 a2 rfs2,
      GetAttr collab "Ehard1" NewFS = (inr a1, rfs1)
      /\ GetAttr collab "Ehard1" rfs1 = (inr a2, rfs2)
      /\ Ino a1 = 0 /\ Ino a2 = 2.
Proof.
  split; [discriminate |]. do 6 (split; [reflexivity |]).
  destruct (GetAttr_hardlink_first_stat collab "Ehard1" "hard1"
              "/plain/hard1" (mkstat 77 2 (Z.lor S_IFREG 0x1a4) 4097) NewFS)
    as (a1 & rfs1 & a2 & rfs2 & _ & _ & E1 & E2 & _ & H1 & H2 & _);
    try reflexivity; try discriminate.
  { change (inoGen NewFS) with 1. lia. }
  exists a1, rfs1, a2, rfs2. repeat split; assumption.
Defined.

End ReverseRuns.

(** ** base64url round trip *)

Section Base64Facts.
Import Base64.
Local Open Scope nat_scope.

(** Induction over a bit string six bits at a time. *)
Lemma sextets_ind (P : list bool -> Prop) :
  (forall l, length l < 6 -> P l) ->
  (forall b5 b4 b3 b2 b1 b0 rest,
      P rest -> P (b5 :: b4 :: b3 :: b2 :: b1 :: b0 :: rest)) ->
  forall l, P l.
Proof.
  intros Hshort Hstep l.
  induction l as [l IH] using (induction_ltof1 _ (@length bool)).
  unfold ltof in IH.
  destruct l as [|b5 [|b4 [|b3 [|b2 [|b1 [|b0 rest]]]]]];
    try (apply Hshort; simpl; lia).
  apply Hstep, IH. simpl. lia.
Qed.

Ltac all_sextets :=
  intros b5 b4 b3 b2 b1 b0;
  destruct b5, b4, b3, b2, b1, b0; reflexivity.

Lemma decode_encode_sextet : forall b5 b4 b3 b2 b1 b0,
  decode_char (encode_sextet b5 b4 b3 b2 b1 b0)
  = Some [b5; b4; b3; b2; b1; b0].
Proof. all_sextets. Qed.

Lemma encode_sextet_not_newline : forall b5 b4 b3 b2 b1 b0,
  is_newline (encode_sextet b5 b4 b3 b2 b1 b0) = false.
Proof. all_sextets. Qed.

Lemma chars_of_bits_no_newline (bits : list bool) :
  List.filter (fun ch => negb (is_newline ch)) (chars_of_bits bits)
  = chars_of_bits bits.
Proof.
  induction bits as [l Hl | b5 b4 b3 b2 b1 b0 rest IH] using sextets_ind.
  - destruct l as [|b5 [|b4 [|b3 [|b2 [|b1 [|b0 rest]]]]]];
      simpl in Hl; try lia; simpl;
      by rewrite ?encode_sextet_not_newline.
  - cbn [chars_of_bits List.filter].
    by rewrite encode_sextet_not_newline, IH.
Qed.

(** Decoding the characters gives the bits back, followed by the zero
    bits that filled the last group. *)
Lemma bits_of_chars_of_bits (bits : list bool) :
  exists pad,
    length pad < 6
    /\ bits_of_chars (chars_of_bits bits) = Some (bits ++ pad).
Proof.
  induction bits as [l Hl | b5 b4 b3 b2 b1 b0 rest IH] using sextets_ind.
  - destruct l as [|b5 [|b4 [|b3 [|b2 [|b1 [|b0 rest]]]]]];
      simpl in Hl; try lia.
    + exists []. split; [simpl; lia | reflexivity].
    + exists (repeat false 5). split; [simpl; lia |].
      cbn [chars_of_bits bits_of_chars].
      by rewrite decode_encode_sextet.
    + exists (repeat false 4). split; [simpl; lia |].
      cbn [chars_of_bits bits_of_chars].
      by rewrite decode_encode_sextet.
    + exists (repeat false 3). split; [simpl; lia |].
      cbn [chars_of_bits bits_of_chars].
      by rewrite decode_encode_sextet.
    + exists (repeat false 2). split; [simpl; lia |].
      cbn [chars_of_bits bits_of_chars].
      by rewrite decode_encode_sextet.
    + exists (repeat false 1). split; [simpl; lia |].
      cbn [chars_of_bits bits_of_chars].
      by rewrite decode_encode_sextet.
  - destruct IH as (pad & Hpad & IH). exists pad. split; [done |].
    cbn [chars_of_bits bits_of_chars].
    by rewrite decode_encode_sextet, IH.
Qed.

Lemma length_chars_of_bits (bits : list bool) :
  length (chars_of_bits bits) = (length bits + 5) / 6.
Proof.
  induction bits as [l Hl | b5 b4 b3 b2 b1 b0 rest IH] using sextets_ind.
  - destruct l as [|b5 [|b4 [|b3 [|b2 [|b1 [|b0 rest]]]]]];
      simpl in Hl; try lia; reflexivity.
  - cbn [chars_of_bits length]. rewrite IH.
    replace (S (S (S (S (S (S (length rest)))))) + 5)
      with (length rest + 5 + 1 * 6) by lia.
    rewrite Nat.div_add by lia. lia.
Qed.

Lemma length_bits_of_bytes (bs : list byte) :
  length (bits_of_bytes bs) = 8 * length bs.
Proof.
  induction bs as [|b bs IH]; [reflexivity |].
  unfold bits_of_bytes in *. cbn [flat_map]. rewrite length_app, IH.
  unfold byte_bits.
  destruct (Byte.to_bits b) as (b0 & b1 & b2 & b3 & b4 & b5 & b6 & b7).
  simpl. lia.
Qed.

(** An encoding never ends in a quantum of a single character. *)
Lemma length_encoding_mod4 (bs : list byte) :
  length (chars_of_bits (bits_of_bytes bs)) mod 4 <> 1.
Proof.
  rewrite length_chars_of_bits, length_bits_of_bytes.
  set (n := length bs). clearbody n.
  assert (E : n = 3 * (n / 3) + n mod 3) by apply Nat.div_mod_eq.
  pose proof (Nat.mod_upper_bound n 3 ltac:(lia)) as B.
  set (q := n / 3) in *. set (r := n mod 3) in *. clearbody q r.
  subst n.
  replace (8 * (3 * q + r) + 5) with (8 * r + 5 + (4 * q) * 6) by lia.
  rewrite Nat.div_add by lia.
  replace ((8 * r + 5) / 6 + 4 * q) with ((8 * r + 5) / 6 + q * 4) by lia.
  rewrite Nat.Div0.mod_add.
  destruct r as [|[|[|r]]]; [| | | lia]; vm_compute; discriminate.
Qed.

Lemma bytes_of_bits_short (pad : list bool) :
  length pad < 8 -> bytes_of_bits pad = [].
Proof.
  intros H.
  destruct pad as [|? [|? [|? [|? [|? [|? [|? [|? ?]]]]]]]];
    simpl in H; try lia; reflexivity.
Qed.

Lemma bytes_of_bits_of_bytes (bs : list byte) (pad : list bool) :
  length pad < 8 ->
  bytes_of_bits (bits_of_bytes bs ++ pad) = bs.
Proof.
  intros Hpad. induction bs as [|b bs IH].
  - by apply bytes_of_bits_short.
  - unfold bits_of_bytes in *. cbn [flat_map]. unfold byte_bits at 1.
    destruct (Byte.to_bits b)
      as (b0 & b1 & b2 & b3 & b4 & b5 & b6 & b7) eqn:E.
    cbn [app bytes_of_bits]. rewrite IH, <- E.
    by rewrite Byte.of_bits_to_bits.
Qed.

Theorem DecodeString_EncodeToString (bs : list byte) :
  DecodeString (EncodeToString bs) = Some bs.
Proof.
  unfold DecodeString, EncodeToString.
  rewrite list_ascii_of_string_of_list_ascii, chars_of_bits_no_newline.
  destruct (bits_of_chars_of_bits (bits_of_bytes bs)) as (pad & Hpad & ->).
  destruct (Nat.eqb_spec
              (length (chars_of_bits (bits_of_bytes bs)) mod 4) 1) as [E|_].
  - by apply length_encoding_mod4 in E.
  - rewrite bytes_of_bits_of_bytes; [done | lia].
Qed.

End Base64Facts.

(** ** The xattr codec *)

Section XattrFacts.
Import Fuse Xattr.
Local Open Scope nat_scope.
Context `{Backend}.

Lemma decrypt_block_long (cipher ad : list byte) :
  NONCE_LEN + TAG_LEN <= length cipher ->
  decrypt_block cipher ad
  = aead_open (take NONCE_LEN cipher) ad (drop NONCE_LEN cipher).
Proof.
  intros Hl. unfold decrypt_block.
  by rewrite (proj2 (Nat.ltb_ge _ _) Hl).
Qed.

Lemma decrypt_block_short (cipher ad : list byte) :
  length cipher < NONCE_LEN + TAG_LEN -> decrypt_block cipher ad = None.
Proof.
  intros Hl. unfold decrypt_block.
  by rewrite (proj2 (Nat.ltb_lt _ _) Hl).
Qed.

Lemma decrypt_encrypt_block (plain ad nonce : list byte) :
  length nonce = NONCE_LEN ->
  decrypt_block (encrypt_block plain ad nonce) ad = Some plain.
Proof.
  intros Hn. unfold encrypt_block.
  rewrite decrypt_block_long
    by (rewrite length_app, aead_seal_length, Hn; lia).
  rewrite <- Hn, take_app_length, drop_app_length.
  apply aead_open_seal.
Qed.

Lemma decrypt_encrypt_value (nonce data : list byte) :
  length nonce = NONCE_LEN ->
  decryptXattrValue (encryptXattrValue nonce data) = inr data.
Proof.
  intros Hn. unfold decryptXattrValue, encryptXattrValue.
  by rewrite decrypt_encrypt_block.
Qed.

(** A stored value that neither parses raw nor after base64url decoding
    is reported as an I/O error. *)
Lemma decryptXattrValue_corrupt (cData : list byte) :
  decrypt_block cData [] = None ->
  (forall raw,
      Base64.DecodeString (string_of_list_byte cData) = Some raw ->
      decrypt_block raw [] = None) ->
  decryptXattrValue cData = inl EIO.
Proof.
  intros Hraw H64. unfold decryptXattrValue. rewrite Hraw.
  destruct (Base64.DecodeString (string_of_list_byte cData)) as [raw|];
    [| done].
  by rewrite (H64 raw eq_refl).
Qed.

Lemma decrypt_block_rejects (record : list byte) :
  (NONCE_LEN + TAG_LEN <= length record -> authenticates record = None) ->
  decrypt_block record [] = None.
Proof.
  intros Hr. destruct (Nat.le_gt_cases (NONCE_LEN + TAG_LEN) (length record)).
  - rewrite decrypt_block_long by done. by apply Hr.
  - by apply decrypt_block_short.
Qed.

Lemma GetXAttr_stored (path attr : string) (cData : list byte)
    (disk : gmap string (gmap string (list byte)))
    (xs : gmap string (list byte)) :
  String.prefix userPrefix attr = true ->
  disk !! backing_path path = Some xs ->
  xs !! encryptXattrName attr = Some cData ->
  GetXAttr path attr disk = decryptXattrValue cData.
Proof.
  intros Hp Hd Hx. unfold GetXAttr, lgetxattr. by rewrite Hp, Hd, Hx.
Qed.

Lemma GetXAttr_lsetxattr (path attr : string) (cData : list byte)
    (disk : gmap string (gmap string (list byte)))
    (xs : gmap string (list byte)) :
  String.prefix userPrefix attr = true ->
  disk !! backing_path path = Some xs ->
  GetXAttr path attr
    (snd (lsetxattr (backing_path path) (encryptXattrName attr) cData disk))
  = decryptXattrValue cData.
Proof.
  intros Hp Hd. unfold lsetxattr. rewrite Hd. simpl.
  apply (GetXAttr_stored _ _ _ _ (<[encryptXattrName attr := cData]> xs));
    [done | | ]; by rewrite lookup_insert_eq.
Qed.

Lemma SetXAttr_lsetxattr (path attr : string) (data nonce : list byte)
    (disk : gmap string (gmap string (list byte)))
    (xs : gmap string (list byte)) :
  String.prefix userPrefix attr = true ->
  disk !! backing_path path = Some xs ->
  SetXAttr path attr data nonce disk
  = (OK, snd (lsetxattr (backing_path path) (encryptXattrName attr)
                        (encryptXattrValue nonce data) disk)).
Proof.
  intros Hp Hd. unfold SetXAttr, lsetxattr. by rewrite Hp, Hd.
Qed.

Lemma lsetxattr_file (cPath cAttr : string) (value : list byte)
    (disk : gmap string (gmap string (list byte)))
    (xs : gmap string (list byte)) :
  disk !! cPath = Some xs ->
  snd (lsetxattr cPath cAttr value disk) !! cPath
  = Some (<[cAttr := value]> xs).
Proof.
  intros Hd. unfold lsetxattr. rewrite Hd. simpl.
  by rewrite lookup_insert_eq.
Qed.

End XattrFacts.

Section XattrClaims.
Import Fuse Xattr.
Local Open Scope nat_scope.
Context `{Backend}.

(** C2. For a file of the backing directory, an attribute name with the
    [user.] prefix and any value, the empty one included: [SetXAttr]
    succeeds and [GetXAttr] then returns exactly that value; after
    [RemoveXAttr], which succeeds, [GetXAttr] fails with the not-found
    error; and after a second [SetXAttr] with any other value, [GetXAttr]
    returns the later value. *)
Theorem xattr_set_get_remove (path attr : string) (v nonce : list byte)
    (disk : gmap string (gmap string (list byte)))
    (xs : gmap string (list byte)) :
  String.prefix "user." attr = true ->
  length nonce = NONCE_LEN ->
  disk !! backing_path path = Some xs ->
  exists disk1,
    SetXAttr path attr v nonce disk = (OK, disk1)
    /\ GetXAttr path attr disk1 = inr v
    /\ (exists disk2,
          RemoveXAttr path attr disk1 = (OK, disk2)
          /\ GetXAttr path attr disk2 = inl ENODATA)
    /\ (forall v' nonce',
          length nonce' = NONCE_LEN ->
          exists disk3,
            SetXAttr path attr v' nonce' disk1 = (OK, disk3)
            /\ GetXAttr path attr disk3 = inr v').
Proof.
  intros Hp Hn Hd.
  eexists. split; [by apply (SetXAttr_lsetxattr _ _ _ _ _ xs) |].
  pose proof (lsetxattr_file _ (encryptXattrName attr)
                (encryptXattrValue nonce v) _ _ Hd) as Hd1.
  split; [| split].
  - rewrite (GetXAttr_lsetxattr _ _ _ _ xs) by done.
    by apply decrypt_encrypt_value.
  - unfold RemoveXAttr, lremovexattr.
    change userPrefix with "user."%string. rewrite Hp, Hd1. simpl.
    rewrite lookup_insert_eq. eexists. split; [reflexivity |].
    unfold GetXAttr, lgetxattr.
    change userPrefix with "user."%string. rewrite Hp. simpl.
    by rewrite lookup_insert_eq, lookup_delete_eq.
  - intros v' nonce' Hn'.
    eexists. split; [by eapply SetXAttr_lsetxattr |].
    rewrite (GetXAttr_lsetxattr _ _ _ _ _ Hp Hd1).
    by apply decrypt_encrypt_value.
Qed.

(** C4. When the stored value is the base64url text of a binary record
    that the AEAD authenticates, and that text is not itself a record the
    AEAD authenticates, [GetXAttr] falls back to decoding the text and
    returns what it returns when the record is stored raw: the plaintext
    of the record. *)
Theorem GetXAttr_base64_as_raw (path attr : string) (record data : list byte)
    (disk : gmap string (gmap string (list byte)))
    (xs : gmap string (list byte)) :
  String.prefix "user." attr = true ->
  disk !! backing_path path = Some xs ->
  decrypt_block record [] = Some data ->
  decrypt_block (list_byte_of_string (Base64.EncodeToString record)) []
  = None ->
  let cPath := backing_path path in
  let cAttr := encryptXattrName attr in
  let stored_raw := snd (lsetxattr cPath cAttr record disk) in
  let stored_base64 :=
    snd (lsetxattr cPath cAttr
           (list_byte_of_string (Base64.EncodeToString record)) disk) in
  GetXAttr path attr stored_base64 = GetXAttr path attr stored_raw
  /\ GetXAttr path attr stored_raw = inr data.
Proof.
  intros Hp Hd Hrec Htext cPath cAttr stored_raw stored_base64.
  unfold stored_raw, stored_base64, cPath, cAttr.
  rewrite !(GetXAttr_lsetxattr _ _ _ _ xs) by done.
  unfold decryptXattrValue.
  rewrite Htext, string_of_list_byte_of_string.
  rewrite DecodeString_EncodeToString. by rewrite Hrec.
Qed.

(** C5. A stored value for which both the raw parse and the parse of its
    base64url decoding fail makes [GetXAttr] fail with EIO, and no bytes
    are returned.  Of the four stored values of the test, the two short
    ones fail both parses by their length alone; the two long ones reach
    the AEAD, and [GetXAttr] fails with EIO whenever the AEAD does not
    authenticate them (for the fourth, base64url decoding fails outright).
    *)
Theorem GetXAttr_broken_EIO (path attr : string)
    (disk : gmap string (gmap string (list byte)))
    (xs : gmap string (list byte)) :
  String.prefix "user." attr = true ->
  disk !! backing_path path = Some xs ->
  let stored := xs !! encryptXattrName attr in
  (forall cData,
      stored = Some cData ->
      decrypt_block cData [] = None ->
      (forall raw,
          Base64.DecodeString (string_of_list_byte cData) = Some raw ->
          decrypt_block raw [] = None) ->
      GetXAttr path attr disk = inl EIO)
  /\ (stored = Some (list_byte_of_string brokenShort1) ->
      GetXAttr path attr disk = inl EIO)
  /\ (stored = Some (list_byte_of_string brokenShort2) ->
      GetXAttr path attr disk = inl EIO)
  /\ (stored = Some (list_byte_of_string brokenLong) ->
      authenticates (list_byte_of_string brokenLong) = None ->
      (forall raw,
          Base64.DecodeString brokenLong = Some raw ->
          authenticates raw = None) ->
      GetXAttr path attr disk = inl EIO)
  /\ (stored = Some (list_byte_of_string brokenDollars) ->
      authenticates (list_byte_of_string brokenDollars) = None ->
      GetXAttr path attr disk = inl EIO).
Proof.
  intros Hp Hd stored.
  assert (Hgen : forall cData,
             stored = Some cData ->
             decrypt_block cData [] = None ->
             (forall raw,
                 Base64.DecodeString (string_of_list_byte cData) = Some raw ->
                 decrypt_block raw [] = None) ->
             GetXAttr path attr disk = inl EIO).
  { intros cData Hs Hraw H64.
    rewrite (GetXAttr_stored _ _ cData _ xs) by done.
    by apply decryptXattrValue_corrupt. }
  split; [exact Hgen |].
  repeat split; intros Hs.
  - apply (Hgen _ Hs); [reflexivity |].
    rewrite string_of_list_byte_of_string. intros raw Hraw.
    vm_compute in Hraw. injection Hraw as <-. reflexivity.
  - apply (Hgen _ Hs); [reflexivity |].
    rewrite string_of_list_byte_of_string. intros raw Hraw.
    vm_compute in Hraw. injection Hraw as <-. reflexivity.
  - intros Hraw H64. apply (Hgen _ Hs).
    + apply decrypt_block_rejects. intros _. exact Hraw.
    + rewrite string_of_list_byte_of_string. intros raw Hdec.
      apply decrypt_block_rejects. intros _. by apply H64.
  - intros Hraw. apply (Hgen _ Hs).
    + apply decrypt_block_rejects. intros _. exact Hraw.
    + rewrite string_of_list_byte_of_string. intros raw Hdec.
      vm_compute in Hdec. discriminate.
Qed.

End XattrClaims.

(** ** Runs of the codec on the stand-in backend *)

Section XattrRuns.
Import Fuse Xattr ToyBackend.
Local Open Scope nat_scope.

Lemma bytes_eqb_refl (a : list byte) : bytes_eqb a a = true.
Proof.
  induction a as [|x a IH]; [reflexivity |]. simpl.
  by rewrite (Byte.byte_dec_lb (eq_refl x)), IH.
Qed.

Lemma toy_seal_length (nonce ad plain : list byte) :
  length (toy_seal nonce ad plain) = length plain + TAG_LEN.
Proof. unfold toy_seal, toy_tag. by rewrite length_app, repeat_length. Qed.

Lemma toy_open_seal (nonce ad plain : list byte) :
  toy_open nonce ad (toy_seal nonce ad plain) = Some plain.
Proof.
  unfold toy_open. rewrite toy_seal_length.
  replace (length plain + TAG_LEN - TAG_LEN) with (length plain) by lia.
  unfold toy_seal. rewrite take_app_length, drop_app_length.
  by rewrite bytes_eqb_refl.
Qed.

#[local] Instance toy : Backend :=
  {| aead_seal := toy_seal;
     aead_open := toy_open;
     cipher_name := toy_cipher_name;
     backing_path := toy_backing_path;
     aead_seal_length := toy_seal_length;
     aead_open_seal := toy_open_seal |}.

(** Set the empty value, then overwrite it. *)
Lemma xattr_set_get_remove_witness :
  String.prefix "user." "user.foo" = true
  /\ length nonce1 = NONCE_LEN
  /\ disk0 !! backing_path "file" = Some ∅
  /\ exists disk1,
      SetXAttr "file" "user.foo" [] nonce1 disk0 = (OK, disk1)
      /\ GetXAttr "file" "user.foo" disk1 = inr []
      /\ (exists disk2,
            RemoveXAttr "file" "user.foo" disk1 = (OK, disk2)
            /\ GetXAttr "file" "user.foo" disk2 = inl ENODATA)
      /\ exists disk3,
          SetXAttr "file" "user.foo" value2 nonce2 disk1 = (OK, disk3)
          /\ GetXAttr "file" "user.foo" disk3 = inr value2.
Proof.
  split; [reflexivity |]. split; [reflexivity |]. split; [reflexivity |].
  assert (Hfile : disk0 !! backing_path "file" = Some ∅) by reflexivity.
  destruct (xattr_set_get_remove "file" "user.foo" [] nonce1 disk0 ∅
              eq_refl eq_refl Hfile) as (disk1 & Hset & Hget & Hrm & Hover).
  exists disk1. repeat (split; [assumption |]).
  exact (Hover value2 nonce2 eq_refl).
Defined.

Definition record1 : list byte := encryptXattrValue nonce1 value1.

Lemma GetXAttr_base64_as_raw_witness :
  String.prefix "user." "user.test2" = true
  /\ disk0 !! backing_path "file" = Some ∅
  /\ decrypt_block record1 [] = Some value1
  /\ decrypt_block (list_byte_of_string (Base64.EncodeToString record1)) []
     = None
  /\ GetXAttr "file" "user.test2"
       (snd (lsetxattr (backing_path "file") (encryptXattrName "user.test2")
               (list_byte_of_string (Base64.EncodeToString record1)) disk0))
     = inr value1.
Proof.
  split; [reflexivity |]. split; [reflexivity |].
  split; [by vm_compute |]. split; [by vm_compute |].
  assert (Hfile : disk0 !! backing_path "file" = Some ∅) by reflexivity.
  destruct (GetXAttr_base64_as_raw "file" "user.test2" record1 value1 disk0 ∅
              eq_refl Hfile) as [E1 E2]; [by vm_compute | by vm_compute |].
  by rewrite E1.
Defined.

Definition broken_disk (val : string)
  : gmap string (gmap string (list byte)) :=
  snd (lsetxattr (backing_path "file") (encryptXattrName "user.test2")
                 (list_byte_of_string val) disk0).

Lemma broken_disk_file (val : string) :
  broken_disk val !! backing_path "file"
  = Some {[ encryptXattrName "user.test2" := list_byte_of_string val ]}.
Proof. reflexivity. Qed.

Lemma GetXAttr_broken_EIO_witness :
  String.prefix "user." "user.test2" = true
  /\ GetXAttr "file" "user.test2" (broken_disk brokenShort1) = inl EIO
  /\ GetXAttr "file" "user.test2" (broken_disk brokenShort2) = inl EIO
  /\ GetXAttr "file" "user.test2" (broken_disk brokenLong) = inl EIO
  /\ GetXAttr "file" "user.test2" (broken_disk brokenDollars) = inl EIO.
Proof.
  split; [reflexivity |].
  pose proof (fun val =>
                GetXAttr_broken_EIO "file" "user.test2" (broken_disk val) _
                  eq_refl (broken_disk_file val)) as Hall.
  cbv zeta in Hall.
  destruct (Hall brokenShort1) as (_ & H1 & _).
  destruct (Hall brokenShort2) as (_ & _ & H2 & _).
  destruct (Hall brokenLong) as (_ & _ & _ & H3 & _).
  destruct (Hall brokenDollars) as (_ & _ & _ & _ & H4).
  split; [| split; [| split]].
  - apply H1, lookup_singleton_eq.
  - apply H2, lookup_singleton_eq.
  - apply H3; [apply lookup_singleton_eq | by vm_compute |].
    intros raw Hraw. vm_compute in Hraw. injection Hraw as <-.
    by vm_compute.
  - apply H4; [apply lookup_singleton_eq | by vm_compute].
Defined.

End XattrRuns.

(** ** Inode numbers over a run of requests *)

Section InodeFacts.
Import Fuse Configfile Nametransform Contentenc Reverse ReverseOpen.

Variable c : Collaborators.

(** What a request can do to the generator and the table. *)
Inductive inode_step (rfs rfs' : reverseFS) : Prop :=
| step_none : rfs' = rfs -> inode_step rfs rfs'
| step_fresh :
    rfs' = {| inoGen := snd (next (inoGen rfs)); inoMap := inoMap rfs |} ->
    inode_step rfs rfs'
| step_record (di : Z * Z) :
    default 0 (inoMap rfs !! di) = 0 ->
    rfs' = {| inoGen := snd (next (inoGen rfs));
              inoMap := <[di := fst (next (inoGen rfs))]> (inoMap rfs) |} ->
    inode_step rfs rfs'.

Lemma inoAwareStat_step (relPlainPath : string) (rfs : reverseFS) :
  inode_step rfs (snd (inoAwareStat c relPlainPath rfs)).
Proof.
  unfold inoAwareStat.
  destruct (abs c relPlainPath None) as [err|absPath]; [by apply step_none |].
  destruct (if String.eqb relPlainPath EmptyString
            then os_Stat c absPath else os_Lstat c absPath) as [err|st];
    [by apply step_none |].
  destruct (fi_IsRegular st && (1 <? st_Nlink st)).
  - cbv zeta. simpl snd.
    destruct (Z.eqb_spec
                (default 0 (inoMap rfs !! (st_Dev st, st_Ino st))) 0)
      as [E|_].
    + by apply (step_record _ _ (st_Dev st, st_Ino st)).
    + by apply step_none.
  - by apply step_fresh.
Qed.

Lemma dirIVAttr_step (relPath : string) (rfs : reverseFS) :
  inode_step rfs (snd (dirIVAttr c relPath rfs)).
Proof.
  unfold dirIVAttr.
  destruct (decryptPath c (relDir relPath)) as [err|dir];
    [by apply step_none |].
  destruct (loopbackfs_GetAttr c dir) as [status|a]; [by apply step_none |].
  destruct (negb (IsDir a)); [by apply step_none |].
  destruct (Z.land (Mode a) S_IXUSR =? 0); [by apply step_none |].
  by apply step_fresh.
Qed.

Lemma GetAttr_step (relPath : string) (rfs : reverseFS) :
  inode_step rfs (snd (GetAttr c relPath rfs)).
Proof.
  unfold GetAttr.
  destruct (String.eqb relPath ConfDefaultName); [apply inoAwareStat_step |].
  destruct (isDirIV relPath); [apply dirIVAttr_step |].
  destruct (isFiltered c relPath); [by apply step_none |].
  destruct (decryptPath c relPath) as [err|cPath]; [by apply step_none |].
  pose proof (inoAwareStat_step cPath rfs) as Hs.
  destruct (inoAwareStat c cPath rfs) as [[status|a] rfs']; [exact Hs |].
  by destruct (IsRegular a).
Qed.

Lemma next_small (gen : Z) :
  0 <= gen < 2 ^ 64 - 1 -> next gen = (gen + 1, gen + 1).
Proof.
  intros H. unfold next, u64. by rewrite Z.mod_small by lia.
Qed.

(** One step keeps the table and the generator consistent, keeps every
    recorded number, and gives every new record a number above the old
    generator value. *)
Lemma inode_step_consistent (rfs rfs' : reverseFS) :
  inode_step rfs rfs' ->
  inodes_consistent rfs ->
  inoGen rfs < 2 ^ 64 - 1 ->
  inodes_consistent rfs'
  /\ inoGen rfs <= inoGen rfs' <= inoGen rfs + 1
  /\ (forall di v, inoMap rfs !! di = Some v -> inoMap rfs' !! di = Some v)
  /\ (forall di v, inoMap rfs' !! di = Some v ->
        inoMap rfs !! di = Some v \/ inoGen rfs < v <= inoGen rfs').
Proof.
  intros Hstep [Hg Hm] Hb. destruct Hstep as [-> | -> | di Hdi ->].
  - split; [by split |]. split; [lia |]. split; [done |]. auto.
  - rewrite next_small by lia. unfold inodes_consistent. simpl.
    split; [split; [lia |] |].
    { intros di v Hv. apply Hm in Hv. lia. }
    split; [lia |]. split; [done |]. auto.
  - rewrite next_small by lia. simpl.
    assert (Hnone : inoMap rfs !! di = None).
    { destruct (inoMap rfs !! di) as [v|] eqn:E; [| done].
      apply Hm in E as Hv. simpl in Hdi. lia. }
    unfold inodes_consistent. simpl.
    split; [split; [lia |] |].
    { intros di' v Hv. destruct (decide (di = di')) as [<-|Hne].
      - rewrite lookup_insert_eq in Hv. injection Hv as <-. lia.
      - rewrite lookup_insert_ne in Hv by done. apply Hm in Hv. lia. }
    split; [lia |]. split.
    + intros di' v Hv. destruct (decide (di = di')) as [<-|Hne].
      * congruence.
      * by rewrite lookup_insert_ne.
    + intros di' v Hv. destruct (decide (di = di')) as [<-|Hne].
      * rewrite lookup_insert_eq in Hv. injection Hv as <-. right. lia.
      * rewrite lookup_insert_ne in Hv by done. by left.
Qed.

Lemma GetAttr_seq_cons (relPath : string) (relPaths : list string)
    (rfs : reverseFS) :
  GetAttr_seq c (relPath :: relPaths) rfs
  = GetAttr_seq c relPaths (snd (GetAttr c relPath rfs)).
Proof. reflexivity. Qed.

(** A run of requests keeps the table and the generator consistent, keeps
    every recorded number, and numbers every new record above the old
    generator value. *)
Lemma GetAttr_seq_consistent (relPaths : list string) (rfs : reverseFS) :
  inodes_consistent rfs ->
  inoGen rfs + Z.of_nat (length relPaths) <= 2 ^ 64 - 1 ->
  inodes_consistent (GetAttr_seq c relPaths rfs)
  /\ inoGen rfs <= inoGen (GetAttr_seq c relPaths rfs)
     <= inoGen rfs + Z.of_nat (length relPaths)
  /\ (forall di v, inoMap rfs !! di = Some v ->
        inoMap (GetAttr_seq c relPaths rfs) !! di = Some v)
  /\ (forall di v, inoMap (GetAttr_seq c relPaths rfs) !! di = Some v ->
        inoMap rfs !! di = Some v
        \/ inoGen rfs < v <= inoGen (GetAttr_seq c relPaths rfs)).
Proof.
  revert rfs. induction relPaths as [|p ps IH]; intros rfs Hc Hb.
  - simpl. split; [done |]. split; [lia |]. split; auto.
  - rewrite GetAttr_seq_cons.
    change (length (p :: ps)) with (S (length ps)) in *.
    destruct (inode_step_consistent _ _ (GetAttr_step p rfs) Hc)
      as (Hc1 & Hg1 & Hkeep1 & Hnew1); [lia |].
    destruct (IH (snd (GetAttr c p rfs)) Hc1) as (Hc2 & Hg2 & Hkeep2 & Hnew2);
      [lia |].
    split; [done |]. split; [lia |]. split.
    + intros di v Hv. by apply Hkeep2, Hkeep1.
    + intros di v Hv. destruct (Hnew2 di v Hv) as [Hv1|Hr]; [| right; lia].
      destruct (Hnew1 di v Hv1) as [Hv0|Hr]; [by left | right; lia].
Qed.

(** [GetAttr] on an ordinary name of a file with several links. *)
Lemma GetAttr_resolved_hardlink (relPath : string) (st : Stat_t)
    (rfs : reverseFS) :
  resolves c relPath st ->
  hard_linked st = true ->
  let di := (st_Dev st, st_Ino st) in
  let stableIno := default 0 (inoMap rfs !! di) in
  GetAttr c relPath rfs =
  (inr (with_Size (FromStat (with_st_Ino st stableIno))
                  (PlainSizeToCipherSize (u64 (st_Size st)))),
   if stableIno =? 0
   then {| inoGen := snd (next (inoGen rfs));
           inoMap := <[di := fst (next (inoGen rfs))]> (inoMap rfs) |}
   else rfs).
Proof.
  intros (Hc & Hiv & Hf & cPath & absPath & Hd & Ha & Hs) Hh.
  apply andb_prop in Hh as [Hreg Hn%Z.ltb_lt].
  by apply (GetAttr_hardlink c relPath cPath absPath).
Qed.

(** [GetAttr] on an ordinary name of anything else. *)
Lemma GetAttr_resolved_single (relPath : string) (st : Stat_t)
    (rfs : reverseFS) :
  resolves c relPath st ->
  hard_linked st = false ->
  GetAttr c relPath rfs =
  (inr (let a := FromStat (with_st_Ino st (fst (next (inoGen rfs)))) in
        if IsRegular a then with_Size a (PlainSizeToCipherSize (Size a))
        else a),
   {| inoGen := snd (next (inoGen rfs)); inoMap := inoMap rfs |}).
Proof.
  intros (Hc & Hiv & Hf & cPath & absPath & Hd & Ha & Hs) Hh.
  rewrite (GetAttr_plain c _ _ _ Hc Hiv Hf Hd).
  rewrite (inoAwareStat_found c _ _ _ _ Ha Hs).
  unfold hard_linked in Hh. rewrite Hh. cbv zeta.
  by destruct (IsRegular (FromStat (with_st_Ino st (fst (next (inoGen rfs)))))).
Qed.

Lemma Ino_with_Size_FromStat (st : Stat_t) (ino size : Z) :
  Ino (with_Size (FromStat (with_st_Ino st ino)) size) = u64 ino.
Proof. reflexivity. Qed.

(** X1. Once one link of a hard-linked file has been stat'ed, every later
    [GetAttr] on any link of the same device and inode pair reports the
    number recorded then, whatever other requests were served in between. *)
Theorem hardlinks_share_recorded_inode (relPathA relPathB : string)
    (stA stB : Stat_t) (between : list string) (rfs : reverseFS) :
  resolves c relPathA stA ->
  resolves c relPathB stB ->
  hard_linked stA = true ->
  hard_linked stB = true ->
  (st_Dev stB, st_Ino stB) = (st_Dev stA, st_Ino stA) ->
  inodes_consistent rfs ->
  inoMap rfs !! (st_Dev stA, st_Ino stA) = None ->
  inoGen rfs + 1 + Z.of_nat (length between) <= 2 ^ 64 - 1 ->
  let rfs1 := snd (GetAttr c relPathA rfs) in
  exists a rfs2,
    GetAttr c relPathB (GetAttr_seq c between rfs1) = (inr a, rfs2)
    /\ Ino a = inoGen rfs + 1
    /\ rfs2 = GetAttr_seq c between rfs1.
Proof.
  intros HA HB HhA HhB Hdi Hc Hnone Hb rfs1.
  assert (Hg : 1 <= inoGen rfs) by apply Hc.
  assert (E1 : rfs1 = {| inoGen := inoGen rfs + 1;
                         inoMap := <[(st_Dev stA, st_Ino stA) :=
                                       inoGen rfs + 1]> (inoMap rfs) |}).
  { unfold rfs1. rewrite (GetAttr_resolved_hardlink _ _ _ HA HhA).
    cbv zeta. rewrite next_small by lia. by rewrite Hnone. }
  destruct (inode_step_consistent _ _ (GetAttr_step relPathA rfs) Hc)
    as (Hc1 & Hg1 & _); [lia |]. fold rfs1 in Hc1, Hg1.
  destruct (GetAttr_seq_consistent between rfs1 Hc1)
    as (Hc2 & Hg2 & Hkeep & _); [lia |].
  assert (Hrec : inoMap (GetAttr_seq c between rfs1)
                 !! (st_Dev stB, st_Ino stB) = Some (inoGen rfs + 1)).
  { rewrite Hdi. apply Hkeep. rewrite E1. simpl. apply lookup_insert_eq. }
  rewrite (GetAttr_resolved_hardlink _ _ _ HB HhB). cbv zeta.
  rewrite Hrec. simpl default.
  destruct (Z.eqb_spec (inoGen rfs + 1) 0) as [|_]; [lia |].
  eexists _, _. split; [reflexivity |].
  split; [| reflexivity].
  rewrite Ino_with_Size_FromStat. apply u64_small. lia.
Qed.

(** X2. The number [GetAttr] reports for a file that is not hard-linked is
    never a number recorded for a hard-linked file, neither at the time of
    the request nor after any later requests. *)
Theorem fresh_inode_never_recorded (relPath : string) (st : Stat_t)
    (later : list string) (rfs : reverseFS) :
  resolves c relPath st ->
  hard_linked st = false ->
  inodes_consistent rfs ->
  inoGen rfs + 1 + Z.of_nat (length later) <= 2 ^ 64 - 1 ->
  exists a rfs1,
    GetAttr c relPath rfs = (inr a, rfs1)
    /\ Ino a = inoGen rfs + 1
    /\ forall di v,
        inoMap (GetAttr_seq c later rfs1) !! di = Some v -> v <> Ino a.
Proof.
  intros Hr Hh Hc Hb. assert (Hg : 1 <= inoGen rfs) by apply Hc.
  pose proof (GetAttr_step relPath rfs) as Hstep.
  rewrite (GetAttr_resolved_single _ _ _ Hr Hh) in *.
  rewrite next_small in * by lia. simpl fst in *. simpl snd in *.
  eexists _, _. split; [reflexivity |].
  assert (Hino : Ino (let a := FromStat (with_st_Ino st (inoGen rfs + 1)) in
                      if IsRegular a
                      then with_Size a (PlainSizeToCipherSize (Size a))
                      else a) = inoGen rfs + 1).
  { cbv zeta.
    destruct (IsRegular (FromStat (with_st_Ino st (inoGen rfs + 1))));
      simpl; apply u64_small; lia. }
  split; [exact Hino |]. rewrite Hino.
  destruct (inode_step_consistent _ _ Hstep Hc) as (Hc1 & _ & _ & Hnew1);
    [lia |].
  intros di v Hv.
  destruct (GetAttr_seq_consistent later _ Hc1) as (_ & _ & _ & Hnew);
    [simpl; lia |].
  destruct (Hnew di v Hv) as [Hv1|Hr1]; [| simpl in Hr1; lia].
  simpl in Hv1. destruct Hc as [_ Hm]. apply Hm in Hv1. lia.
Qed.


(** X4. A [GetAttr] that fails leaves the generator and the table as they
    were. *)
Theorem GetAttr_error_keeps_state (relPath : string) (rfs : reverseFS)
    (err : Errno) :
  fst (GetAttr c relPath rfs) = inl err ->
  snd (GetAttr c relPath rfs) = rfs.
Proof.
  assert (Hstat : forall p,
             (exists e, inoAwareStat c p rfs = (inl e, rfs))
             \/ exists a rfs', inoAwareStat c p rfs = (inr a, rfs')).
  { intros p. unfold inoAwareStat.
    destruct (abs c p None); [left; eauto |].
    destruct (if String.eqb p EmptyString
              then os_Stat c s else os_Lstat c s); [left; eauto |].
    destruct (fi_IsRegular s0 && (1 <? st_Nlink s0)); right; eauto. }
  unfold GetAttr.
  destruct (String.eqb relPath ConfDefaultName).
  { destruct (Hstat ConfReverseName) as [(e & ->)|(a & rfs' & ->)]; done. }
  destruct (isDirIV relPath).
  { unfold dirIVAttr.
    destruct (decryptPath c (relDir relPath)); [done |].
    destruct (loopbackfs_GetAttr c s); [done |].
    destruct (negb (IsDir a)); [done |].
    by destruct (Z.land (Mode a) S_IXUSR =? 0). }
  destruct (isFiltered c relPath); [done |].
  destruct (decryptPath c relPath) as [e|cPath]; [done |].
  destruct (Hstat cPath) as [(e & ->)|(a & rfs' & ->)]; [done |].
  by destruct (IsRegular a).
Qed.


(** X6. [GetAttr] on [gocryptfs.conf] stats the backing
    [.gocryptfs.reverse.conf] and reports its size as it is, whatever the
    filter and the path decryption would say about that name. *)
Theorem GetAttr_conf_passthrough (absPath : string) (st : Stat_t)
    (rfs : reverseFS) :
  abs c ConfReverseName None = inr absPath ->
  os_Lstat c absPath = inr st ->
  exists a rfs',
    GetAttr c ConfDefaultName rfs = (inr a, rfs')
    /\ Size a = u64 (st_Size st)
    /\ Mode a = st_Mode st.
Proof.
  intros Ha Hs. unfold GetAttr. rewrite String.eqb_refl.
  rewrite (inoAwareStat_found c ConfReverseName absPath st rfs Ha Hs).
  destruct (fi_IsRegular st && (1 <? st_Nlink st)); cbv zeta;
    eexists _, _; (split; [reflexivity |]); by split.
Qed.


End InodeFacts.

(** ** More on paths, listings and the filter *)

Section ReverseMore.
Import Fuse Configfile Nametransform Contentenc Reverse ReverseOpen Listing.

Variable c : Collaborators.

(** X7. A filtered name that is neither the configuration file nor a
    virtual [gocryptfs.diriv] is denied with EPERM by [GetAttr], [Access]
    and [Open] alike, and [GetAttr] leaves the filesystem state alone.
    [OpenDir] does not consult the filter: its listing is the same under
    any filter, so a filtered name is still listed. *)
Theorem filtered_path_denied {File OsFile : Type}
    (o : FileCollaborators File OsFile) (relPath : string) (mode flags : Z)
    (rfs : reverseFS) :
  relPath <> ConfDefaultName ->
  isDirIV relPath = false ->
  isFiltered c relPath = true ->
  GetAttr c relPath rfs = (inl EPERM, rfs)
  /\ Access c relPath mode = ToStatus (Some EPERM)
  /\ Open c o relPath flags = inl EPERM
  /\ forall filter cipherPath,
      OpenDir (with_isFiltered c filter) cipherPath = OpenDir c cipherPath.
Proof.
  intros Hc Hiv Hf. unfold GetAttr, Access, Open.
  rewrite (proj2 (String.eqb_neq _ _) Hc), Hiv, Hf.
  do 3 (split; [reflexivity |]).
  intros filter cipherPath. reflexivity.
Qed.


(** X9. The virtual file that [OpenDir] lists and the attribute that
    [GetAttr] synthesizes for it agree: whenever both succeed, the listing
    has an entry [gocryptfs.diriv] whose mode is the mode [GetAttr]
    reports. *)
Theorem OpenDir_GetAttr_dirIV_mode (cipherPath relPath : string)
    (listing : list DirEntry) (status : Status) (a : Attr)
    (rfs rfs' : reverseFS) :
  OpenDir c cipherPath = (Some listing, status) ->
  isDirIV relPath = true ->
  GetAttr c relPath rfs = (inr a, rfs') ->
  exists e,
    In e listing /\ de_Name e = DirIVFilename /\ de_Mode e = Mode a.
Proof.
  intros Ho Hiv Hg.
  assert (Hm : Mode a = DirIVMode).
  { rewrite (GetAttr_dirIV c _ _ Hiv), dirIVAttr_cases in Hg.
    destruct (decryptPath c (relDir relPath)); [done |].
    destruct (loopbackfs_GetAttr c s) as [|a0]; [done |].
    destruct (negb (IsDir a0)); [done |].
    destruct (Z.land (Mode a0) S_IXUSR =? 0); [done |].
    by injection Hg as <- _. }
  exists dirIVEntry. rewrite Hm. split; [| by split].
  unfold OpenDir in Ho.
  destruct (decryptPath c cipherPath) as [|plain] eqn:Hd; [done |].
  destruct (loopbackfs_OpenDir c plain) as [[entries|] st] eqn:Hl; [| done].
  pose proof (OpenDir_listing c cipherPath plain entries st Hd Hl) as E.
  unfold OpenDir in E. rewrite Hd, Hl in E. rewrite E in Ho.
  injection Ho as <- _. apply in_or_app. right. by left.
Qed.

(** X10. [isDirIV] looks at the last element only: a path [D/name], for any
    [D] and a non-empty name without separators, is a virtual
    [gocryptfs.diriv] exactly when the name is [gocryptfs.diriv]. *)
Theorem isDirIV_last_element (D name : string) :
  name <> EmptyString ->
  forallb (fun ch => negb (Filepath.IsPathSeparator ch))
          (list_ascii_of_string name) = true ->
  isDirIV (String.append D (String Filepath.Separator name))
  = String.eqb name DirIVFilename.
Proof.
  intros Hne Hsep. unfold isDirIV. by rewrite Base_child.
Qed.

(** X11. [relDir] of [D/name] is [D] for a relative path [D] in shortest
    form and a name without separators, and [relDir] of a name without
    separators is the empty path, the root of the mount. *)
Theorem relDir_parent (D name : string) :
  forallb (fun ch => negb (Filepath.IsPathSeparator ch))
          (list_ascii_of_string name) = true ->
  relDir name = EmptyString
  /\ (Filepath.is_clean_relative D = true ->
      relDir (String.append D (String Filepath.Separator name)) = D).
Proof.
  intros Hsep. split.
  - unfold relDir, Filepath.Dir. by rewrite upto_last_sep_none.
  - intros Hc. unfold relDir. rewrite Dir_child by done.
    destruct (String.eqb_spec D ".") as [->|]; [by vm_compute in Hc | done].
Qed.

End ReverseMore.

(** ** fsck: the order of the walk *)

Section SortFacts.
Import Fuse Fsck.
Local Open Scope nat_scope.

Lemma ascii_compare_refl (a : ascii) : Ascii.compare a a = Eq.
Proof. apply N.compare_refl. Qed.

Lemma ascii_compare_lt_trans (a b d : ascii) :
  Ascii.compare a b = Lt -> Ascii.compare b d = Lt ->
  Ascii.compare a d = Lt.
Proof.
  unfold Ascii.compare. rewrite !N.compare_lt_iff. apply N.lt_trans.
Qed.

Lemma string_compare_refl (a : string) : String.compare a a = Eq.
Proof.
  induction a as [|ch a IH]; [reflexivity |]. simpl.
  by rewrite ascii_compare_refl.
Qed.

Lemma string_compare_lt_trans (a b d : string) :
  String.compare a b = Lt -> String.compare b d = Lt ->
  String.compare a d = Lt.
Proof.
  revert b d. induction a as [|x a IH]; intros [|y b] [|z d]; simpl;
    try done.
  destruct (Ascii.compare x y) eqn:Exy; try done;
    destruct (Ascii.compare y z) eqn:Eyz; try done; intros Hab Hbd.
  - apply Ascii.compare_eq_iff in Exy as ->. rewrite Eyz. eauto.
  - apply Ascii.compare_eq_iff in Exy as ->. by rewrite Eyz.
  - apply Ascii.compare_eq_iff in Eyz as <-. by rewrite Exy.
  - by rewrite (ascii_compare_lt_trans _ _ _ Exy Eyz).
Qed.

Lemma strings_Compare_lt (a b : string) :
  (strings_Compare a b <? 0)%Z = true <-> String.compare a b = Lt.
Proof.
  unfold strings_Compare. by destruct (String.compare a b).
Qed.


(** X12. [Less] is the strict byte-wise order of the names: it is
    irreflexive, asymmetric and transitive, and of two entries with
    different names one is less than the other.  It fails only on an index
    out of range. *)
Theorem Less_strict_order (s : list DirEntry) (i j k : nat) :
  i < length s -> j < length s -> k < length s ->
  exists lij lji ljk lik,
    Less s i j = Some lij /\ Less s j i = Some lji
    /\ Less s j k = Some ljk /\ Less s i k = Some lik
    /\ Less s i i = Some false
    /\ (lij = true -> lji = false)
    /\ (lij = true -> ljk = true -> lik = true)
    /\ (de_Name <$> s !! i <> de_Name <$> s !! j ->
        lij = true \/ lji = true).
Proof.
  intros Hi Hj Hk.
  destruct (lookup_lt_is_Some_2 s i Hi) as [x Hx].
  destruct (lookup_lt_is_Some_2 s j Hj) as [y Hy].
  destruct (lookup_lt_is_Some_2 s k Hk) as [z Hz].
  unfold Less. rewrite Hx, Hy, Hz.
  eexists _, _, _, _. do 4 (split; [reflexivity |]).
  split; [| split; [| split]].
  - unfold strings_Compare. by rewrite string_compare_refl.
  - rewrite strings_Compare_lt. intros H.
    apply not_true_is_false. rewrite strings_Compare_lt.
    rewrite String.compare_antisym, H. done.
  - rewrite !strings_Compare_lt. apply string_compare_lt_trans.
  - simpl. intros Hne. rewrite !strings_Compare_lt.
    rewrite (String.compare_antisym (de_Name x) (de_Name y)).
    destruct (String.compare (de_Name y) (de_Name x)) eqn:E; simpl; auto.
    apply String.compare_eq_iff in E. congruence.
Qed.

(** X13. [Swap] exchanges the entries at its two indices and leaves the
    others in place: the result has the same length, is a permutation of
    the slice, and swapping again gives the slice back.  It fails exactly
    on an index out of range. *)
Theorem Swap_exchanges (s : list DirEntry) (i j : nat) :
  (i < length s /\ j < length s ->
   exists s',
     Swap s i j = Some s'
     /\ Len s' = Len s
     /\ s' !! i = s !! j
     /\ s' !! j = s !! i
     /\ (forall k, k <> i -> k <> j -> s' !! k = s !! k)
     /\ s' ≡ₚ s
     /\ Swap s' i j = Some s)
  /\ (Swap s i j = None <-> length s <= i \/ length s <= j).
Proof.
  split.
  - intros [Hi Hj].
    destruct (lookup_lt_is_Some_2 s i Hi) as [x Hx].
    destruct (lookup_lt_is_Some_2 s j Hj) as [y Hy].
    unfold Swap, Len. rewrite Hx, Hy. eexists. split; [reflexivity |].
    assert (Hli : <[j:=x]> (<[i:=y]> s) !! i = Some y).
    { destruct (decide (i = j)) as [->|Hne].
      - rewrite list_lookup_insert_eq by (rewrite length_insert; lia).
        congruence.
      - rewrite list_lookup_insert_ne by done.
        by rewrite list_lookup_insert_eq. }
    assert (Hlj : <[j:=x]> (<[i:=y]> s) !! j = Some x).
    { by rewrite list_lookup_insert_eq by (rewrite length_insert; lia). }
    split; [by rewrite !length_insert |].
    split; [congruence |]. split; [congruence |]. split; [| split].
    + intros k Hki Hkj. by rewrite !list_lookup_insert_ne.
    + by apply Permutation_insert_swap.
    + rewrite Hli, Hlj. f_equal.
      apply list_eq. intros k.
      destruct (decide (k = j)) as [->|Hkj].
      { rewrite list_lookup_insert_eq by (rewrite !length_insert; lia).
        done. }
      rewrite list_lookup_insert_ne by done.
      destruct (decide (k = i)) as [->|Hki].
      { rewrite list_lookup_insert_eq by (rewrite !length_insert; lia).
        done. }
      by rewrite !list_lookup_insert_ne.
  - unfold Swap. split.
    + destruct (s !! i) eqn:Ei; [| left; by apply lookup_ge_None].
      destruct (s !! j) eqn:Ej; [done | right; by apply lookup_ge_None].
    + intros [H|H]; apply lookup_ge_None in H; rewrite H; [done |].
      by destruct (s !! i).
Qed.

End SortFacts.

(** ** fsck: what the walk marks *)

Section WalkFacts.
Import Fuse Fsck.

Variable fs : FS.

Lemma corruptList_receive (name : string -> string) (items : list string)
    (ck : fsckObj) :
  corruptList (receive name items ck) = corruptList ck ++ map name items.
Proof.
  unfold receive. revert ck.
  induction items as [|item items IH]; intros ck; simpl.
  - by rewrite app_nil_r.
  - rewrite IH. simpl. by rewrite <- app_assoc.
Qed.

Lemma corruptList_marks (bad : string -> bool) (path : string)
    (attrs : list string) (ck : fsckObj) :
  corruptList
    (fold_left (fun ck a => if bad a then markCorrupt ck path else ck)
               attrs ck)
  = corruptList ck ++ repeat path (length (List.filter bad attrs)).
Proof.
  revert ck. induction attrs as [|a attrs IH]; intros ck; simpl.
  - by rewrite app_nil_r.
  - rewrite IH. destruct (bad a); simpl; [| done].
    by rewrite <- app_assoc.
Qed.

(** X14. What [xattrs] marks: first every name reported while the
    attributes were listed, as [path xattr:name]; then the path itself,
    once if the listing failed and otherwise once for every attribute whose
    value cannot be read.  A path with several unreadable attributes is
    entered several times. *)
Theorem xattrs_marks (path : string) (ck : fsckObj) :
  let '(attrs, status, items) := fs_ListXAttr fs path in
  corruptList (xattrs fs path ck)
  = corruptList ck
    ++ map (fun item => String.append path (String.append " xattr:" item))
           items
    ++ (if Ok status
        then repeat path
               (length (List.filter
                          (fun a => negb (Ok (fs_GetXAttr fs path a)))
                          attrs))
        else [path]).
Proof.
  unfold xattrs. destruct (fs_ListXAttr fs path) as [[attrs status] items].
  destruct (Ok status); simpl.
  - by rewrite corruptList_marks, corruptList_receive, <- app_assoc.
  - by rewrite corruptList_receive, <- app_assoc.
Qed.

Lemma xattrs_extends (path : string) (ck : fsckObj) :
  corruptList ck `prefix_of` corruptList (xattrs fs path ck).
Proof.
  unfold xattrs. destruct (fs_ListXAttr fs path) as [[attrs status] items].
  destruct (negb (Ok status)); simpl.
  - rewrite corruptList_receive, <- app_assoc. by eexists.
  - rewrite corruptList_marks, corruptList_receive, <- app_assoc.
    by eexists.
Qed.

Lemma markCorrupt_extends (ck : fsckObj) (path : string) :
  corruptList ck `prefix_of` corruptList (markCorrupt ck path).
Proof. by eexists. Qed.

Lemma receive_extends (name : string -> string) (items : list string)
    (ck : fsckObj) :
  corruptList ck `prefix_of` corruptList (receive name items ck).
Proof. rewrite corruptList_receive. by eexists. Qed.

Lemma symlink_extends (path : string) (ck : fsckObj) :
  corruptList ck `prefix_of` corruptList (symlink fs path ck).
Proof.
  unfold symlink. destruct (negb (Ok (fs_Readlink fs path))); [| done].
  apply markCorrupt_extends.
Qed.

(** The read loop marks nothing but the path of its file. *)
Lemma read_loop_marks (fuel : nat) (path : string) (off : Z)
    (ck ck' : fsckObj) :
  read_loop fs fuel path off ck = Some ck' ->
  exists n, corruptList ck' = corruptList ck ++ repeat path n.
Proof.
  revert off ck. induction fuel as [|fuel IH]; intros off ck; [done |].
  simpl. destruct (fs_Read fs path off) as [[size status] items].
  assert (Hr : corruptList (receive (fun _ => path) items ck)
               = corruptList ck ++ repeat path (length items)).
  { rewrite corruptList_receive. f_equal.
    clear. induction items; simpl; by f_equal. }
  destruct (negb (Ok status)).
  { intros [= <-]. exists (length items + 1)%nat. simpl. rewrite Hr.
    by rewrite repeat_app, app_assoc. }
  destruct (size =? 0)%Z.
  { intros [= <-]. eauto. }
  intros H. apply IH in H as [n Hn]. exists (length items + n)%nat.
  by rewrite Hn, Hr, repeat_app, app_assoc.
Qed.

Lemma file_extends (fuel : nat) (path : string) (ck ck' : fsckObj) :
  file fs fuel path ck = Some ck' ->
  corruptList ck `prefix_of` corruptList ck'.
Proof.
  unfold file. pose proof (xattrs_extends path ck) as Hx.
  destruct (negb (Ok (fs_Open fs path O_RDONLY))).
  - intros [= <-]. etrans; [exact Hx | apply markCorrupt_extends].
  - intros [n Hn]%read_loop_marks. etrans; [exact Hx |].
    rewrite Hn. by eexists.
Qed.

Lemma dir_entries_extends (dir_rec : string -> fsckObj -> option fsckObj)
    (fuel : nat) (path : string) (entries : list DirEntry)
    (ck ck' : fsckObj) :
  (forall p ck1 ck2,
      dir_rec p ck1 = Some ck2 ->
      corruptList ck1 `prefix_of` corruptList ck2) ->
  dir_entries fs dir_rec fuel path entries ck = Some ck' ->
  corruptList ck `prefix_of` corruptList ck'.
Proof.
  intros Hrec. revert ck.
  induction entries as [|e rest IH]; intros ck; simpl.
  { by intros [= <-]. }
  destruct (String.eqb (de_Name e) "." || String.eqb (de_Name e) "..");
    [apply IH |].
  destruct (Z.land (de_Mode e) S_IFMT =? S_IFDIR)%Z.
  { destruct (dir_rec (Join path (de_Name e)) ck) as [ck1|] eqn:E; [| done].
    intros H. etrans; [by eapply Hrec | by apply IH]. }
  destruct (Z.land (de_Mode e) S_IFMT =? S_IFREG)%Z.
  { destruct (file fs fuel (Join path (de_Name e)) ck) as [ck1|] eqn:E;
      [| done].
    intros H. etrans; [by eapply file_extends | by apply IH]. }
  destruct (Z.land (de_Mode e) S_IFMT =? S_IFLNK)%Z.
  { intros H. etrans; [apply symlink_extends | by apply IH]. }
  apply IH.
Qed.

(** X15. The walk only ever appends to the list of corrupt entries: what
    was marked before a directory is checked is still there, in the same
    order, at the front of the list afterwards. *)
Theorem dir_extends_corruptList (fuel : nat) (path : string)
    (ck ck' : fsckObj) :
  dir fs fuel path ck = Some ck' ->
  corruptList ck `prefix_of` corruptList ck'.
Proof.
  revert path ck ck'. induction fuel as [|fuel IH]; intros path ck ck';
    [done |].
  simpl. destruct (fs_OpenDir fs path) as [[entries status] items].
  pose proof (xattrs_extends path ck) as Hx.
  pose proof (receive_extends (fun item => Join path item) items
                (xattrs fs path ck)) as Hr.
  destruct (negb (Ok status)).
  - intros [= <-]. etrans; [exact Hx |]. etrans; [exact Hr |].
    apply markCorrupt_extends.
  - intros H. etrans; [exact Hx |]. etrans; [exact Hr |].
    eapply dir_entries_extends; [| exact H]. apply IH.
Qed.






End WalkFacts.

(** ** fsck: the walk ends *)

Section WalkEnds.
Import Fuse Fsck.
Local Open Scope nat_scope.

Variable fs : FS.

Lemma read_loop_more_fuel (n m : nat) (path : string) (off : Z)
    (ck r : fsckObj) :
  read_loop fs n path off ck = Some r -> n <= m ->
  read_loop fs m path off ck = Some r.
Proof.
  revert m off ck. induction n as [|n IH]; intros m off ck; [done |].
  intros H Hm. destruct m as [|m]; [lia |]. simpl in *.
  destruct (fs_Read fs path off) as [[size status] items].
  destruct (negb (Ok status)); [done |].
  destruct (size =? 0)%Z; [done |]. apply IH; [done | lia].
Qed.

Lemma file_more_fuel (n m : nat) (path : string) (ck r : fsckObj) :
  file fs n path ck = Some r -> n <= m -> file fs m path ck = Some r.
Proof.
  unfold file. destruct (negb (Ok (fs_Open fs path O_RDONLY))); [done |].
  apply read_loop_more_fuel.
Qed.

Lemma dir_entries_more_fuel
    (rec1 rec2 : string -> fsckObj -> option fsckObj) (n m : nat)
    (path : string) (entries : list DirEntry) (ck r : fsckObj) :
  (forall p ck1 ck2, rec1 p ck1 = Some ck2 -> rec2 p ck1 = Some ck2) ->
  n <= m ->
  dir_entries fs rec1 n path entries ck = Some r ->
  dir_entries fs rec2 m path entries ck = Some r.
Proof.
  intros Hrec Hm. revert ck.
  induction entries as [|e rest IH]; intros ck; simpl; [done |].
  destruct (String.eqb (de_Name e) "." || String.eqb (de_Name e) "..");
    [apply IH |].
  destruct (Z.land (de_Mode e) S_IFMT =? S_IFDIR)%Z.
  { destruct (rec1 (Join path (de_Name e)) ck) as [ck1|] eqn:E; [| done].
    rewrite (Hrec _ _ _ E). apply IH. }
  destruct (Z.land (de_Mode e) S_IFMT =? S_IFREG)%Z.
  { destruct (file fs n (Join path (de_Name e)) ck) as [ck1|] eqn:E;
      [| done].
    rewrite (file_more_fuel _ _ _ _ _ E Hm). apply IH. }
  destruct (Z.land (de_Mode e) S_IFMT =? S_IFLNK)%Z; apply IH.
Qed.

Lemma dir_more_fuel (n m : nat) (path : string) (ck r : fsckObj) :
  dir fs n path ck = Some r -> n <= m -> dir fs m path ck = Some r.
Proof.
  revert m path ck r. induction n as [|n IH]; intros m path ck r; [done |].
  intros H Hm. destruct m as [|m]; [lia |]. simpl in *.
  destruct (fs_OpenDir fs path) as [[entries status] items].
  destruct (negb (Ok status)); [done |].
  eapply dir_entries_more_fuel; [| | exact H]; [| lia].
  intros p ck1 ck2 Hp. apply (IH m); [done | lia].
Qed.

Variable rank : string -> nat.
Variable reads : string -> Z -> nat.
Hypothesis bounded : walk_bounded fs rank reads.

Lemma read_loop_ends (fuel : nat) (path : string) (off : Z) (ck : fsckObj) :
  reads path off < fuel -> is_Some (read_loop fs fuel path off ck).
Proof.
  revert off ck. induction fuel as [|fuel IH]; intros off ck Hf; [lia |].
  simpl. destruct (fs_Read fs path off) as [[size status] items] eqn:E.
  destruct (Ok status) eqn:Hs; simpl; [| eauto].
  destruct (Z.eqb_spec size 0) as [|Hne]; [eauto |].
  apply IH. destruct bounded as [_ Hr].
  pose proof (Hr _ _ _ _ _ E Hs Hne). lia.
Qed.

Lemma file_ends (fuel : nat) (path : string) (ck : fsckObj) :
  reads path 0 < fuel -> is_Some (file fs fuel path ck).
Proof.
  intros Hf. unfold file.
  destruct (negb (Ok (fs_Open fs path O_RDONLY))); [eauto |].
  by apply read_loop_ends.
Qed.

Lemma dir_entries_ends (path : string) (entries : list DirEntry) :
  (forall e,
      In e entries ->
      String.eqb (de_Name e) "." || String.eqb (de_Name e) ".." = false ->
      Z.land (de_Mode e) S_IFMT = S_IFDIR ->
      exists fuel, forall ck, is_Some (dir fs fuel (Join path (de_Name e)) ck)) ->
  exists fuel,
    forall ck, is_Some (dir_entries fs (dir fs fuel) fuel path entries ck).
Proof.
  induction entries as [|e rest IH]; intros Hsub.
  { exists 0. simpl. eauto. }
  destruct IH as [frest Hrest].
  { intros e' Hin. apply Hsub. by right. }
  assert (Hlift : forall fuel ck,
             frest <= fuel ->
             is_Some (dir_entries fs (dir fs fuel) fuel path rest ck)).
  { intros fuel ck Hle. destruct (Hrest ck) as [r Hr]. exists r.
    eapply dir_entries_more_fuel; [| exact Hle | exact Hr].
    intros p ck1 ck2 Hp. by apply (dir_more_fuel frest). }
  destruct (String.eqb (de_Name e) "." || String.eqb (de_Name e) "..")
    eqn:Hdot.
  { exists frest. intros ck. simpl. rewrite Hdot. by apply Hlift. }
  destruct (Z.eqb_spec (Z.land (de_Mode e) S_IFMT) S_IFDIR) as [Hdir|Hdir].
  { destruct (Hsub e (or_introl eq_refl) Hdot Hdir) as [fe He].
    exists (Nat.max frest fe). intros ck. simpl. rewrite Hdot, Hdir.
    simpl. destruct (He ck) as [ck1 H1].
    rewrite (dir_more_fuel fe (Nat.max frest fe) _ _ _ H1) by lia.
    apply Hlift. lia. }
  exists (Nat.max frest (S (reads (Join path (de_Name e)) 0))).
  intros ck. simpl. rewrite Hdot.
  destruct (Z.eqb_spec (Z.land (de_Mode e) S_IFMT) S_IFDIR) as [|_];
    [done |].
  destruct (Z.land (de_Mode e) S_IFMT =? S_IFREG)%Z.
  { destruct (file_ends
                (Nat.max frest (S (reads (Join path (de_Name e)) 0)))
                (Join path (de_Name e)) ck) as [ck1 ->]; [lia |].
    apply Hlift. lia. }
  destruct (Z.land (de_Mode e) S_IFMT =? S_IFLNK)%Z; apply Hlift; lia.
Qed.

Lemma dir_ends (path : string) :
  exists fuel, forall ck, is_Some (dir fs fuel path ck).
Proof.
  remember (rank path) as n eqn:En. revert path En.
  induction n as [n IH] using lt_wf_ind. intros path ->.
  destruct (fs_OpenDir fs path) as [[entries status] items] eqn:E.
  destruct (dir_entries_ends path (sort_Sort fs entries)) as [fuel Hf].
  { intros e Hin Hdot Hdir. destruct bounded as [Hrank _].
    apply (IH (rank (Join path (de_Name e)))); [| done].
    by apply (Hrank _ _ _ _ _ E). }
  exists (S fuel). intros ck. simpl. rewrite E.
  destruct (negb (Ok status)); [eauto | apply Hf].
Qed.

(** X17. On a mount whose directory tree is well founded and whose files
    end, [fsck] finishes: with enough fuel it reaches a result, and the
    result is the same with any more. *)
Theorem fsck_ends :
  exists fuel result,
    forall more, fuel <= more -> fsck fs more false = Some result.
Proof.
  destruct (dir_ends EmptyString) as [fuel Hf].
  destruct (Hf {| corruptList := [] |}) as [ck Hck].
  exists fuel.
  exists (if (length (corruptList ck) =? 0)%nat then NoProblems
          else ExitFsckErrors (length (corruptList ck))).
  intros more Hm. unfold fsck.
  rewrite (dir_more_fuel _ _ _ _ _ Hck Hm).
  by destruct (length (corruptList ck) =? 0)%nat.
Qed.

End WalkEnds.

(** ** More runs on the small backing directory *)

Section ReverseMoreRuns.
Import Fuse Configfile Nametransform Contentenc Reverse ReverseOpen Listing.
Import Fixture FixtureMore.

Lemma resolves_hard1 : resolves collab "Ehard1" stat_hard.
Proof.
  split; [discriminate |]. split; [reflexivity |]. split; [reflexivity |].
  exists "hard1"%string, "/plain/hard1"%string. by repeat split.
Qed.

Lemma resolves_hard2 : resolves collab "Ehard2" stat_hard.
Proof.
  split; [discriminate |]. split; [reflexivity |]. split; [reflexivity |].
  exists "hard2"%string, "/plain/hard2"%string. by repeat split.
Qed.

Lemma resolves_single : resolves collab "Esingle" stat_single.
Proof.
  split; [discriminate |]. split; [reflexivity |]. split; [reflexivity |].
  exists "single"%string, "/plain/single"%string. by repeat split.
Qed.


Lemma NewFS_consistent : inodes_consistent NewFS.
Proof.
  split; [reflexivity |]. intros di v H.
  unfold NewFS in H. cbn [inoMap] in H. by rewrite lookup_empty in H.
Qed.

(** [hard1], then a file with one link and a virtual file, then [hard2]. *)
Lemma hardlinks_share_recorded_inode_witness :
  resolves collab "Ehard1" stat_hard
  /\ resolves collab "Ehard2" stat_hard
  /\ hard_linked stat_hard = true
  /\ inodes_consistent NewFS
  /\ inoMap NewFS !! (st_Dev stat_hard, st_Ino stat_hard) = None
  /\ exists a rfs2,
      GetAttr collab "Ehard2"
        (GetAttr_seq collab ["Esingle"; "Esub/gocryptfs.diriv"]%string
           (snd (GetAttr collab "Ehard1" NewFS)))
      = (inr a, rfs2)
      /\ Ino a = 2.
Proof.
  split; [exact resolves_hard1 |]. split; [exact resolves_hard2 |].
  split; [reflexivity |]. split; [exact NewFS_consistent |].
  split; [reflexivity |].
  destruct (hardlinks_share_recorded_inode collab "Ehard1" "Ehard2"
              stat_hard stat_hard
              ["Esingle"; "Esub/gocryptfs.diriv"]%string NewFS
              resolves_hard1 resolves_hard2 eq_refl eq_refl eq_refl
              NewFS_consistent eq_refl)
    as (a & rfs2 & E & Hino & _).
  { change (inoGen NewFS) with 1. simpl length. lia. }
  exists a, rfs2. split; [exact E | exact Hino].
Defined.

Lemma fresh_inode_never_recorded_witness :
  resolves collab "Esingle" stat_single
  /\ hard_linked stat_single = false
  /\ inodes_consistent NewFS
  /\ exists a rfs1,
      GetAttr collab "Esingle" NewFS = (inr a, rfs1)
      /\ Ino a = 2
      /\ forall di v,
          inoMap (GetAttr_seq collab ["Ehard1"; "Ehard2"]%string rfs1) !! di
          = Some v ->
          v <> 2.
Proof.
  split; [exact resolves_single |]. split; [reflexivity |].
  split; [exact NewFS_consistent |].
  destruct (fresh_inode_never_recorded collab "Esingle" stat_single
              ["Ehard1"; "Ehard2"]%string NewFS resolves_single eq_refl
              NewFS_consistent) as (a & rfs1 & E & Hino & Hnever).
  { change (inoGen NewFS) with 1. simpl length. lia. }
  exists a, rfs1. split; [exact E |]. split; [exact Hino |].
  intros di v Hv Heq. apply (Hnever di v Hv). rewrite Hino. exact Heq.
Defined.


Lemma GetAttr_error_keeps_state_witness :
  fst (GetAttr collab "Enone" NewFS) = inl ENOENT
  /\ snd (GetAttr collab "Enone" NewFS) = NewFS.
Proof.
  split; [reflexivity |].
  apply (GetAttr_error_keeps_state collab "Enone" NewFS ENOENT). reflexivity.
Defined.


Lemma GetAttr_conf_passthrough_witness :
  abs collab ConfReverseName None
  = inr "/plain/.gocryptfs.reverse.conf"%string
  /\ os_Lstat collab "/plain/.gocryptfs.reverse.conf"
     = inr (mkstat 79 1 (Z.lor S_IFREG 0x1a4) 300)
  /\ exists a rfs',
      GetAttr collab ConfDefaultName NewFS = (inr a, rfs') /\ Size a = 300.
Proof.
  split; [reflexivity |]. split; [reflexivity |].
  destruct (GetAttr_conf_passthrough collab "/plain/.gocryptfs.reverse.conf"
              (mkstat 79 1 (Z.lor S_IFREG 0x1a4) 300) NewFS eq_refl eq_refl)
    as (a & rfs' & E & Hs & _).
  exists a, rfs'. split; [exact E |]. by rewrite Hs.
Defined.

Lemma filtered_path_denied_witness :
  ("Esingle"%string <> ConfDefaultName)
  /\ isDirIV "Esingle" = false
  /\ isFiltered collab_filtered "Esingle" = true
  /\ GetAttr collab_filtered "Esingle" NewFS = (inl EPERM, NewFS)
  /\ Access collab_filtered "Esingle" 4 = 1
  /\ Open collab_filtered handles "Esingle" 0 = inl EPERM
  /\ OpenDir collab_filtered EmptyString = OpenDir collab EmptyString.
Proof.
  split; [discriminate |]. split; [reflexivity |]. split; [reflexivity |].
  destruct (filtered_path_denied collab_filtered handles "Esingle" 4 0 NewFS)
    as (HG & HA & HO & HD); [discriminate | reflexivity | reflexivity |].
  split; [exact HG |]. split; [exact HA |]. split; [exact HO |].
  exact (HD (isFiltered collab) EmptyString).
Defined.


Lemma OpenDir_GetAttr_dirIV_mode_witness :
  isDirIV "gocryptfs.diriv" = true
  /\ exists listing a rfs',
      OpenDir collab EmptyString = (Some listing, OK)
      /\ GetAttr collab "gocryptfs.diriv" NewFS = (inr a, rfs')
      /\ exists e,
          In e listing /\ de_Name e = DirIVFilename /\ de_Mode e = Mode a.
Proof.
  split; [reflexivity |].
  destruct (OpenDir collab EmptyString) as [[listing|] status] eqn:Eo;
    [| by vm_compute in Eo].
  destruct (GetAttr collab "gocryptfs.diriv" NewFS) as [[e|a] rfs'] eqn:Eg;
    [by vm_compute in Eg |].
  assert (status = OK) as ->
    by (vm_compute in Eo; injection Eo as _ <-; reflexivity).
  exists listing, a, rfs'. split; [reflexivity |]. split; [reflexivity |].
  exact (OpenDir_GetAttr_dirIV_mode collab EmptyString "gocryptfs.diriv"
           listing OK a NewFS rfs' Eo eq_refl Eg).
Defined.

Lemma isDirIV_last_element_witness :
  ("gocryptfs.diriv"%string <> EmptyString)
  /\ isDirIV "Esub/gocryptfs.diriv" = true
  /\ isDirIV "Esub/gocryptfs.dirivx" = false.
Proof.
  split; [discriminate |]. split.
  - apply (isDirIV_last_element "Esub" "gocryptfs.diriv");
      [discriminate | reflexivity].
  - apply (isDirIV_last_element "Esub" "gocryptfs.dirivx");
      [discriminate | reflexivity].
Defined.

Lemma relDir_parent_witness :
  Filepath.is_clean_relative "Ea/Eb" = true
  /\ relDir "gocryptfs.diriv" = EmptyString
  /\ relDir "Ea/Eb/gocryptfs.diriv" = "Ea/Eb"%string.
Proof.
  split; [reflexivity |].
  destruct (relDir_parent "Ea/Eb" "gocryptfs.diriv" eq_refl) as [Htop Hchild].
  split; [exact Htop | exact (Hchild eq_refl)].
Defined.


End ReverseMoreRuns.

(** ** Runs of fsck on the small forward mounts *)

Section FsckRuns.
Import Fuse Fsck FsckFixture.

Lemma Less_strict_order_witness :
  (2 < length three_entries)%nat
  /\ Less three_entries 1 0 = Some true
  /\ Less three_entries 0 2 = Some true
  /\ Less three_entries 1 2 = Some true
  /\ Less three_entries 0 1 = Some false.
Proof.
  split; [simpl; lia |].
  destruct (Less_strict_order three_entries 1 0 2) as
    (lij & lji & ljk & lik & E1 & E2 & E3 & E4 & _ & Hasym & Htrans & _);
    [simpl; lia | simpl; lia | simpl; lia |].
  assert (lij = true) as -> by (vm_compute in E1; congruence).
  assert (ljk = true) as -> by (vm_compute in E3; congruence).
  rewrite (Htrans eq_refl eq_refl) in E4. rewrite (Hasym eq_refl) in E2.
  by repeat split.
Defined.

Lemma dir_extends_corruptList_witness :
  dir damaged 5 EmptyString {| corruptList := ["old"%string] |}
  = Some {| corruptList := ["old"; "a"; "d/b"; "d/b"; "l"]%string |}
  /\ ["old"%string] `prefix_of` ["old"; "a"; "d/b"; "d/b"; "l"]%string.
Proof.
  split; [reflexivity |].
  exact (dir_extends_corruptList damaged 5 EmptyString
           {| corruptList := ["old"%string] |}
           {| corruptList := ["old"; "a"; "d/b"; "d/b"; "l"]%string |}
           eq_refl).
Defined.



Lemma damaged_bounded : walk_bounded damaged damaged_rank damaged_reads.
Proof.
  split.
  - intros path entries status items e Hopen Hin Hdot Hdir.
    simpl in Hopen.
    destruct (String.eqb_spec path EmptyString) as [->|Hroot].
    + injection Hopen as <- _ _. vm_compute in Hin.
      destruct Hin as [<-|[<-|[<-|[<-|[<-|[<-|[]]]]]]];
        try (by vm_compute in Hdot); try (by vm_compute in Hdir).
      vm_compute. lia.
    + destruct (String.eqb_spec path "d") as [->|Hd].
      * injection Hopen as <- _ _. vm_compute in Hin.
        destruct Hin as [<-|[]]. by vm_compute in Hdir.
      * injection Hopen as <- _ _. destruct Hin.
  - intros path off size status items Hread Hok Hsize. simpl in Hread.
    destruct (String.eqb path "a" && (off =? 0)) eqn:Ea.
    + injection Hread as <- _ _.
      apply andb_prop in Ea as [_ ->%Z.eqb_eq]. vm_compute. lia.
    + destruct (String.eqb path "d/b" && (off =? 0));
        injection Hread as <- _ _; done.
Qed.

Lemma fsck_ends_witness :
  walk_bounded damaged damaged_rank damaged_reads
  /\ (exists fuel result,
        forall more, (fuel <= more)%nat ->
                     fsck damaged more false = Some result)
  /\ fsck damaged 3 false = Some (ExitFsckErrors 4).
Proof.
  split; [exact damaged_bounded |].
  split; [| reflexivity].
  exact (fsck_ends damaged damaged_rank damaged_reads damaged_bounded).
Defined.

End FsckRuns.

(** ** The configuration file under [Access]; what [file] marks *)

Section LastFacts.
Import Fuse Configfile Nametransform Contentenc Reverse ReverseOpen.
Import Fsck Fixture FixtureMore FsckFixture.

(** X18. [Access] has no case for [gocryptfs.conf]: the name goes through
    the path decryption like an encrypted name.  When the decryption
    rejects it and [abs] hands the error on, [Access] fails, although
    [GetAttr] and [Open] serve the file from [.gocryptfs.reverse.conf]. *)
Theorem Access_conf_not_special {File OsFile : Type} (c : Collaborators)
    (o : FileCollaborators File OsFile) (mode flags : Z) (e e' : Errno)
    (absPath : string) (st : Stat_t) (rfs : reverseFS) :
  isFiltered c ConfDefaultName = false ->
  decryptPath c ConfDefaultName = inl e ->
  abs c EmptyString (Some e) = inl e' ->
  abs c ConfReverseName None = inr absPath ->
  os_Lstat c absPath = inr st ->
  Access c ConfDefaultName mode = ToStatus (Some e')
  /\ Access c ConfDefaultName mode <> OK
  /\ (exists a rfs', GetAttr c ConfDefaultName rfs = (inr a, rfs'))
  /\ Open c o ConfDefaultName flags = loopbackfs_Open o ConfReverseName flags.
Proof.
  intros Hf Hd Habs Ha Hs.
  assert (HA : Access c ConfDefaultName mode = ToStatus (Some e')).
  { unfold Access, abs_decryptPath.
    replace (isDirIV ConfDefaultName) with false by reflexivity.
    by rewrite Hf, Hd, Habs. }
  split; [exact HA |]. split; [by rewrite HA |]. split; [| reflexivity].
  unfold GetAttr. rewrite String.eqb_refl.
  rewrite (inoAwareStat_found c ConfReverseName absPath st rfs Ha Hs).
  destruct (fi_IsRegular st && (1 <? st_Nlink st)); eauto.
Qed.

Lemma Access_conf_not_special_witness :
  isFiltered collab ConfDefaultName = false
  /\ decryptPath collab ConfDefaultName = inl EINVAL
  /\ abs collab EmptyString (Some EINVAL) = inl EINVAL
  /\ Access collab ConfDefaultName 4 = 22
  /\ (exists a rfs', GetAttr collab ConfDefaultName NewFS = (inr a, rfs'))
  /\ Open collab handles ConfDefaultName 0
     = inr "loopback:.gocryptfs.reverse.conf"%string.
Proof.
  split; [reflexivity |]. split; [reflexivity |]. split; [reflexivity |].
  destruct (Access_conf_not_special collab handles 4 0 EINVAL EINVAL
              "/plain/.gocryptfs.reverse.conf"
              (mkstat 79 1 (Z.lor S_IFREG 0x1a4) 300) NewFS
              eq_refl eq_refl eq_refl eq_refl eq_refl)
    as (HA & _ & HG & HO).
  split; [exact HA |]. split; [exact HG | exact HO].
Defined.

(** X19. [file] marks nothing but its own file: every entry it adds is the
    path itself or the path followed by [ xattr:] and a reported name. *)
Theorem file_marks_own_path (fs : FS) (fuel : nat) (path : string)
    (ck ck' : fsckObj) :
  file fs fuel path ck = Some ck' ->
  exists added,
    corruptList ck' = corruptList ck ++ added
    /\ forall x, In x added ->
         x = path
         \/ exists item,
             x = String.append path (String.append " xattr:" item).
Proof.
  unfold file, xattrs.
  destruct (fs_ListXAttr fs path) as [[attrs status] items].
  set (name := fun item => String.append path (String.append " xattr:" item)).
  assert (Hx :
    exists added,
      corruptList
        (if negb (Ok status)
         then markCorrupt (receive name items ck) path
         else fold_left
                (fun ck a =>
                   if negb (Ok (fs_GetXAttr fs path a))
                   then markCorrupt ck path else ck)
                attrs (receive name items ck))
      = corruptList ck ++ added
      /\ forall x, In x added -> x = path \/ exists item, x = name item).
  { destruct (negb (Ok status)).
    - exists (map name items ++ [path]). split.
      + simpl. by rewrite corruptList_receive, <- app_assoc.
      + intros x [Hin|[<-|[]]]%in_app_or; [| by left].
        apply in_map_iff in Hin as (item & <- & _). eauto.
    - eexists. split.
      + rewrite corruptList_marks, corruptList_receive, <- app_assoc.
        reflexivity.
      + intros x [Hin|Hin]%in_app_or.
        * apply in_map_iff in Hin as (item & <- & _). eauto.
        * apply repeat_spec in Hin. by left. }
  destruct Hx as (added & Hadded & Hown).
  destruct (negb (Ok (fs_Open fs path O_RDONLY))).
  - intros [= <-]. exists (added ++ [path]). split.
    + simpl. by rewrite Hadded, <- app_assoc.
    + intros x [Hin|[<-|[]]]%in_app_or; [by apply Hown | by left].
  - intros [n Hn]%read_loop_marks. exists (added ++ repeat path n). split.
    + by rewrite Hn, Hadded, <- app_assoc.
    + intros x [Hin|Hin]%in_app_or; [by apply Hown |].
      apply repeat_spec in Hin. by left.
Qed.

Lemma file_marks_own_path_witness :
  file damaged 5 "d/b" {| corruptList := [] |}
  = Some {| corruptList := ["d/b"; "d/b"]%string |}
  /\ exists added,
      ["d/b"; "d/b"]%string = [] ++ added
      /\ forall x, In x added ->
           x = "d/b"%string
           \/ exists item,
               x = String.append "d/b" (String.append " xattr:" item).
Proof.
  split; [reflexivity |].
  exact (file_marks_own_path damaged 5 "d/b" {| corruptList := [] |}
           {| corruptList := ["d/b"; "d/b"]%string |} eq_refl).
Defined.

End LastFacts.
